(** * seq66 set manager (libseq66/src/play/setmaster.cpp)

    A shallow embedding of [seq66::setmaster], the class that owns the
    screen-sets of a tune and keeps track of the play-screen, together with
    the properties of it that the specification states.

    The container [m_container] is a [std::map<screenset::number, screenset>]:
    it is embedded as a [gmap Z screenset], and its iteration order (ascending
    by key) as the key-sorted list of its bindings, see [bindings].  An
    iterator is embedded as the key of the node it designates, and
    [m_container.end()] as [None]. *)

From Stdlib Require Import ZArith Lia.
From stdpp Require Import gmap list sorting fin_maps strings pretty.

Local Open Scope Z_scope.

(** ** Machine integers *)

(** [screenset::number], [seq::number] and the geometry are C++ [int]s. *)
Definition int_min : Z := - 2 ^ 31.
Definition int_max : Z := 2 ^ 31 - 1.

(** Two's complement reduction of an [int] computation. *)
Definition int_wrap (z : Z) : Z := (z + 2 ^ 31) mod 2 ^ 32 - 2 ^ 31.

(** ** Outcomes

    [set_playscreen] calls itself and reads the container with [at], which
    throws [std::out_of_range] on an absent key.  Both effects are kept in the
    result type. *)
Inductive outcome (A : Type) : Type :=
  | Done (a : A)
  | OutOfRange
  | OutOfFuel.
Arguments Done {A} a.
Arguments OutOfRange {A}.
Arguments OutOfFuel {A}.

Global Instance outcome_bind : MBind outcome := fun A B k c =>
  match c with
  | Done a => k a
  | OutOfRange => OutOfRange
  | OutOfFuel => OutOfFuel
  end.

(** ** The screen-set *)

Section Screenset.

Context {pattern : Type}.

(** Modelled from the spec: the class [screenset] of play/screenset.hpp,
    which setmaster.cpp only uses.  The spec gives it its own set-number,
    fixed row/column dimensions, a flag marking it as the active set, and a
    grid of slot references. *)
Record screenset : Type := mk_screenset {
  m_set_number : Z;
  s_rows : Z;
  s_columns : Z;
  m_is_playscreen : bool;
  m_slots : list (option pattern)
}.

(** Modelled from the spec: [screenset::limit()], the number reserved for the
    dummy set, 2048. *)
Definition limit : Z := 2048.

(** Modelled from the spec: the constructor [screenset(setno, rows, columns)];
    the new set has the given number and dimensions, is not the play-screen,
    and has [rows * columns] empty slots. *)
Definition screenset_new (setno rows columns : Z) : screenset :=
  {| m_set_number := setno;
     s_rows := rows;
     s_columns := columns;
     m_is_playscreen := false;
     m_slots := replicate (Z.to_nat (rows * columns)) None |}.

(** Modelled from the spec: the setter [screenset::is_playscreen(bool)]. *)
Definition set_is_playscreen (flag : bool) (s : screenset) : screenset :=
  {| m_set_number := m_set_number s;
     s_rows := s_rows s;
     s_columns := s_columns s;
     m_is_playscreen := flag;
     m_slots := m_slots s |}.

(** Modelled from the spec: [screenset::change_set_number(setno)], the setter
    of the set's own number.  The slots are opaque here, so the renumbering of
    the patterns they refer to is not represented. *)
Definition change_set_number (setno : Z) (s : screenset) : screenset :=
  {| m_set_number := setno;
     s_rows := s_rows s;
     s_columns := s_columns s;
     m_is_playscreen := m_is_playscreen s;
     m_slots := m_slots s |}.

(** ** The container *)

(** An iterator of [m_container]: the key of a node, or [None] for [end()]. *)
Definition iterator : Type := option Z.

Definition key_le (p q : Z * screenset) : Prop := p.1 <= q.1.

Global Instance key_le_dec p q : Decision (key_le p q).
Proof. unfold key_le. apply _. Defined.

Global Instance key_le_trans : Transitive key_le.
Proof. intros x y z. unfold key_le. lia. Qed.

Global Instance key_le_total : Total key_le.
Proof. intros x y. unfold key_le. lia. Qed.

(** The bindings of the map in iteration order, ascending by key. *)
Definition bindings (m : gmap Z screenset) : list (Z * screenset) :=
  merge_sort key_le (map_to_list m).

(** [std::map::find]. *)
Definition container_find (m : gmap Z screenset) (k : Z) : iterator :=
  match m !! k with
  | Some _ => Some k
  | None => None
  end.

(** [std::map::insert]: nothing is stored when the key is present; the
    iterator designates the node with that key in both cases. *)
Definition container_insert (k : Z) (s : screenset) (m : gmap Z screenset)
  : gmap Z screenset * (iterator * bool) :=
  match m !! k with
  | Some _ => (m, (Some k, false))
  | None => (<[k := s]> m, (Some k, true))
  end.

(** Assignment through an iterator, [it->second.f()]. *)
Definition through (it : iterator) (f : screenset -> screenset)
  (m : gmap Z screenset) : gmap Z screenset :=
  match it with
  | Some k => alter f k m
  | None => m
  end.

(** ** The manager *)

Record setmaster : Type := mk_setmaster {
  m_rows : Z;
  m_columns : Z;
  m_set_count : Z;
  m_container : gmap Z screenset;
  m_playscreen : Z;
  (** the node [m_playscreen_pointer] points into, [None] for [nullptr] *)
  m_playscreen_pointer : option Z
}.

Definition with_container (m : gmap Z screenset) (sm : setmaster) : setmaster :=
  {| m_rows := m_rows sm; m_columns := m_columns sm;
     m_set_count := m_set_count sm; m_container := m;
     m_playscreen := m_playscreen sm;
     m_playscreen_pointer := m_playscreen_pointer sm |}.

Definition with_playscreen (n : Z) (sm : setmaster) : setmaster :=
  {| m_rows := m_rows sm; m_columns := m_columns sm;
     m_set_count := m_set_count sm; m_container := m_container sm;
     m_playscreen := n;
     m_playscreen_pointer := m_playscreen_pointer sm |}.

Definition with_pointer (p : option Z) (sm : setmaster) : setmaster :=
  {| m_rows := m_rows sm; m_columns := m_columns sm;
     m_set_count := m_set_count sm; m_container := m_container sm;
     m_playscreen := m_playscreen sm;
     m_playscreen_pointer := p |}.

(** [setmaster::clear()] empties the container. *)
Definition clear (sm : setmaster) : setmaster := with_container ∅ sm.

(** [setmaster::calculate_set]. *)
Definition calculate_set (sm : setmaster) (row column : Z) : Z :=
  if (row <? 0) || (row >=? m_rows sm) || (column <? 0) || (column >=? m_columns sm)
  then 0
  else int_wrap (int_wrap (m_rows sm * column) + row).

(** [setmaster::add_set]. *)
Definition add_set (sm : setmaster) (setno : Z) : setmaster * iterator :=
  let newset := screenset_new setno (m_rows sm) (m_columns sm) in
  let resultpair := container_insert setno newset (m_container sm) in
  (with_container resultpair.1 sm, resultpair.2.1).

(** The loop of [setmaster::find_by_value] over the bindings. *)
Fixpoint find_by_value_loop (l : list (Z * screenset)) (setno : Z) : iterator :=
  match l with
  | [] => None
  | it :: l' =>
      if m_set_number it.2 =? setno then Some it.1
      else find_by_value_loop l' setno
  end.

(** [setmaster::find_by_value]. *)
Definition find_by_value (sm : setmaster) (setno : Z) : iterator :=
  find_by_value_loop (bindings (m_container sm)) setno.

(** The loop of [setmaster::screenset_index]. *)
Fixpoint screenset_index_loop (l : list (Z * screenset)) (setno : Z)
  (index result : Z) : Z :=
  match l with
  | [] => result
  | sset :: l' =>
      if m_set_number sset.2 =? setno then index
      else screenset_index_loop l' setno (int_wrap (index + 1)) result
  end.

(** [setmaster::screenset_index]; [unassigned] is [seq::unassigned()]. *)
Definition screenset_index (unassigned : Z) (sm : setmaster) (setno : Z) : Z :=
  screenset_index_loop (bindings (m_container sm)) setno 0 unassigned.

(** [std::swap] of the two designated screen-sets, followed by the two calls
    of [change_set_number], as in the body of [swap_sets].  The swap exchanges
    the whole objects: number, dimensions, play-screen flag and slots. *)
Definition swap_contents (k0 k1 : Z) (set0 set1 : Z) (m : gmap Z screenset)
  : gmap Z screenset :=
  match m !! k0, m !! k1 with
  | Some s0, Some s1 =>
      let swapped := <[k1 := s0]> (<[k0 := s1]> m) in
      through (Some k1) (change_set_number set0)
        (through (Some k0) (change_set_number set1) swapped)
  | _, _ => m
  end.

(** [setmaster::swap_sets]. *)
Definition swap_sets (sm : setmaster) (set0 set1 : Z) : setmaster * bool :=
  let item0 := find_by_value sm set0 in
  let item1 := find_by_value sm set1 in
  match item0, item1 with
  | Some k0, Some k1 =>
      (with_container (swap_contents k0 k1 set0 set1 (m_container sm)) sm, true)
  | _, _ => (sm, false)
  end.

(** [m_container.at(k)], as the address of the node: throws when absent. *)
Definition container_at (m : gmap Z screenset) (k : Z) : outcome (option Z) :=
  match m !! k with
  | Some _ => Done (Some k)
  | None => OutOfRange
  end.

(** [setmaster::set_playscreen]; the recursive call consumes fuel. *)
Fixpoint set_playscreen_rec (fuel : nat) (sm : setmaster) (setno : Z)
  : outcome (setmaster * bool) :=
  match fuel with
  | O => OutOfFuel
  | S fuel' =>
      if (setno >=? 0) && (setno <? limit) then
        let sset := container_find (m_container sm) setno in
        '(sm3, result) ← (match sset with
             | Some _ =>
                 let oldset := container_find (m_container sm) (m_playscreen sm) in
                 let sm1 := with_container
                              (through oldset (set_is_playscreen false) (m_container sm)) sm in
                 let sm2 := with_playscreen setno sm1 in
                 Done (with_container
                         (through sset (set_is_playscreen true) (m_container sm2)) sm2,
                       true)
             | None =>
                 let '(sm1, setp) := add_set sm setno in
                 match setp with
                 | Some _ =>
                     '(sm2, _) ← set_playscreen_rec fuel' sm1 setno;
                     Done (with_container
                             (through setp (set_is_playscreen true) (m_container sm2)) sm2,
                           true)
                 | None => Done (sm1, false)
                 end
             end : outcome (setmaster * bool));
        let sm4 := if result : bool then sm3 else with_playscreen 0 sm3 in
        p ← container_at (m_container sm4) (m_playscreen sm4);
        Done (with_pointer p sm4, result)
      else Done (sm, false)
  end.

(** One level of recursion is all the function ever uses. *)
Definition set_playscreen (sm : setmaster) (setno : Z) : outcome (setmaster * bool) :=
  set_playscreen_rec 2 sm setno.

(** [setmaster::reset]. *)
Definition reset (sm : setmaster) : outcome setmaster :=
  let sm0 := clear sm in
  let '(sm1, setp) := add_set sm0 0 in
  sm2 ← (match setp with
         | Some _ => '(sm2, _) ← set_playscreen sm1 0; Done sm2
         | None => Done sm1
         end : outcome setmaster);
  Done (add_set sm2 limit).1.

(** The constructor; its arguments stand for the constants [c_rows] and
    [c_columns] and for [seq::unassigned()], which other headers define. *)
Definition setmaster_ctor (c_rows c_columns unassigned : Z) : outcome setmaster :=
  reset {| m_rows := c_rows;
           m_columns := c_columns;
           m_set_count := int_wrap (c_rows * c_columns);
           m_container := ∅;
           m_playscreen := unassigned;
           m_playscreen_pointer := None |}.

End Screenset.

Arguments screenset : clear implicits.
Arguments setmaster : clear implicits.

(** ** Visitors *)

Section Visitors.

Context {pattern : Type}.

(** The state a handler closes over. *)
Context {H : Type}.

(** [screenset::sethandler], a [std::function<bool (screenset &, number)>]:
    a call may change the closure's state and the set it is given. *)
Definition sethandler : Type :=
  H -> screenset pattern -> Z -> H * screenset pattern * bool.

(** [screenset::slothandler]; only handed on to the screen-set. *)
Context {slothandler : Type}.

(** [screenset::usable()], left abstract: the manager only calls it. *)
Variable usable : screenset pattern -> bool.

(** The screen-set's own set+slot and slot-only visitation routines,
    [screenset::set_function(s, p)] and [screenset::slot_function(p)], left
    abstract: the manager only calls them. *)
Variable screenset_set_slot_function :
  sethandler -> slothandler -> H -> screenset pattern -> H * screenset pattern * bool.
Variable screenset_slot_function :
  slothandler -> H -> screenset pattern -> H * screenset pattern * bool.

(** Modelled from the spec: [screenset::set_function(s, index)], the entry
    point that invokes the set-level handler on this set with the index
    supplied by the manager. *)
Definition screenset_set_function (s : sethandler) (index : Z)
  (h : H) (sset : screenset pattern) : H * screenset pattern * bool :=
  s h sset index.

(** What a visit leaves behind: the return value, the container, the
    handler's state, and the calls made, in order. *)
Record visit (call : Type) : Type := mk_visit {
  v_result : bool;
  v_container : gmap Z (screenset pattern);
  v_handler : H;
  v_calls : list call
}.
Arguments mk_visit {call}.
Arguments v_result {call}.
Arguments v_container {call}.
Arguments v_handler {call}.
Arguments v_calls {call}.

(** The loop of [set_function(sethandler)]; a call is recorded as the key of
    the set visited and the index passed. *)
Fixpoint set_function_loop (s : sethandler) (l : list (Z * screenset pattern))
  (result : bool) (index : Z) (m : gmap Z (screenset pattern)) (h : H)
  (calls : list (Z * Z)) : visit (Z * Z) :=
  match l with
  | [] => mk_visit result m h calls
  | sset :: l' =>
      if usable sset.2 then
        let '(h', sset', result') := screenset_set_function s index h sset.2 in
        let m' := <[sset.1 := sset']> m in
        let calls' := calls ++ [(sset.1, index)] in
        if result' then
          set_function_loop s l' result' (int_wrap (index + 1)) m' h' calls'
        else mk_visit result' m' h' calls'
      else set_function_loop s l' result index m h calls
  end.

(** [setmaster::set_function(sethandler)]. *)
Definition set_function (sm : setmaster pattern) (s : sethandler) (h : H)
  : visit (Z * Z) :=
  set_function_loop s (bindings (m_container sm)) false 0 (m_container sm) h [].

(** The loop shared in shape by the other two overloads; [f] is the routine
    of the screen-set that is called, and a call is recorded as the key of
    the set it is called on. *)
Fixpoint visit_loop (f : H -> screenset pattern -> H * screenset pattern * bool)
  (l : list (Z * screenset pattern))
  (result : bool) (m : gmap Z (screenset pattern)) (h : H)
  (calls : list Z) : visit Z :=
  match l with
  | [] => mk_visit result m h calls
  | sset :: l' =>
      if usable sset.2 then
        let '(h', sset', result') := f h sset.2 in
        let m' := <[sset.1 := sset']> m in
        let calls' := calls ++ [sset.1] in
        if result' then visit_loop f l' result' m' h' calls'
        else mk_visit result' m' h' calls'
      else visit_loop f l' result m h calls
  end.

(** [setmaster::set_function(sethandler, slothandler)]. *)
Definition set_function_sets_slots (sm : setmaster pattern)
  (s : sethandler) (p : slothandler) (h : H) : visit Z :=
  visit_loop (screenset_set_slot_function s p)
    (bindings (m_container sm)) false (m_container sm) h [].

(** [setmaster::set_function(slothandler)]. *)
Definition set_function_slots (sm : setmaster pattern)
  (p : slothandler) (h : H) : visit Z :=
  visit_loop (screenset_slot_function p)
    (bindings (m_container sm)) false (m_container sm) h [].

(** The usable sets, in iteration order. *)
Definition usable_sets (sm : setmaster pattern) : list (Z * screenset pattern) :=
  filter (fun sset => usable sset.2 = true) (bindings (m_container sm)).

(** The handler, called on the sets of [l] in turn with the indices from
    [index] on, reports success on its first [k - 1] calls and failure on
    call [k]. *)
Fixpoint fails_on_call (s : sethandler) (l : list (Z * screenset pattern))
  (index : Z) (h : H) (k : nat) : bool :=
  match k, l with
  | S k', sset :: l' =>
      let '(h', _, result) := s h sset.2 index in
      match k' with
      | O => negb result
      | S _ => result && fails_on_call s l' (int_wrap (index + 1)) h' k'
      end
  | _, _ => false
  end.

(** The same for a routine [f] of the screen-set, which takes no index. *)
Fixpoint fails_on_visit (f : H -> screenset pattern -> H * screenset pattern * bool)
  (l : list (Z * screenset pattern)) (h : H) (k : nat) : bool :=
  match k, l with
  | S k', sset :: l' =>
      let '(h', _, result) := f h sset.2 in
      match k' with
      | O => negb result
      | S _ => result && fails_on_visit f l' h' k'
      end
  | _, _ => false
  end.

End Visitors.

Arguments sethandler : clear implicits.
Arguments visit : clear implicits.
Arguments mk_visit {pattern H call}.
Arguments v_result {pattern H call}.
Arguments v_container {pattern H call}.
Arguments v_handler {pattern H call}.
Arguments v_calls {pattern H call}.

(** ** The textual report *)

Section Report.

Context {pattern : Type}.

(** [screenset::usable()] and [screenset::to_string(showseqs)], left
    abstract: the manager only calls them. *)
Variable usable : screenset pattern -> bool.
Variable to_string : screenset pattern -> bool -> string.

(** What [std::endl] appends to the stream. *)
Definition endl : string := String (Ascii.ascii_of_nat 10) EmptyString.

(** The loop of [setmaster::sets_to_string]; [result] is the content of the
    string stream, and an [int] is written in decimal. *)
Fixpoint sets_to_string_loop (l : list (Z * screenset pattern)) (showseqs : bool)
  (result : string) : string :=
  match l with
  | [] => result
  | s :: l' =>
      let keyvalue := s.1 in
      if keyvalue <? limit then
        let result1 := result +:+ "  Key " +:+ pretty s.1 +:+ ": " in
        let result2 :=
          if usable s.2 then result1 +:+ to_string s.2 showseqs
          else result1 +:+ endl in
        sets_to_string_loop l' showseqs result2
      else sets_to_string_loop l' showseqs result
  end.

(** [setmaster::sets_to_string]. *)
Definition sets_to_string (sm : setmaster pattern) (showseqs : bool) : string :=
  sets_to_string_loop (bindings (m_container sm)) showseqs
    ("Sets" +:+ (if showseqs then " and Sequences:" else ":") +:+ endl).

(** [setmaster::show]; [cout] is what standard output holds. *)
Definition show (sm : setmaster pattern) (showseqs : bool) (cout : string) : string :=
  cout +:+ sets_to_string sm showseqs.

End Report.

(** ** Sequences of calls *)

(** Modelled from the spec: the constants [c_rows] and [c_columns] of the
    default geometry, 4 rows by 8 columns. *)
Definition c_rows : Z := 4.
Definition c_columns : Z := 8.

Inductive call : Type :=
  | AddSet (setno : Z)
  | SetPlayscreen (setno : Z)
  | SwapSets (set0 set1 : Z)
  | Reset.

Section Calls.

Context {pattern : Type}.

Definition do_call (c : call) (sm : setmaster pattern) : outcome (setmaster pattern) :=
  match c with
  | AddSet setno => Done (add_set sm setno).1
  | SetPlayscreen setno => '(sm', _) ← set_playscreen sm setno; Done sm'
  | SwapSets set0 set1 => Done (swap_sets sm set0 set1).1
  | Reset => reset sm
  end.

Fixpoint do_calls (cs : list call) (sm : setmaster pattern) : outcome (setmaster pattern) :=
  match cs with
  | [] => Done sm
  | c :: cs' => sm' ← do_call c sm; do_calls cs' sm'
  end.

(** The states a manager can be in: constructed, then driven through its
    mutators. *)
Definition reachable (sm : setmaster pattern) : Prop :=
  exists (unassigned : Z) (cs : list call),
    (sm0 ← setmaster_ctor c_rows c_columns unassigned; do_calls cs sm0) = Done sm.

(** [setno] is the own number of some stored set. *)
Definition occurs (setno : Z) (sm : setmaster pattern) : Prop :=
  exists k s, m_container sm !! k = Some s /\ m_set_number s = setno.

(** The set stored under key [k] has its play-screen flag set. *)
Definition marked (sm : setmaster pattern) (k : Z) : bool :=
  match m_container sm !! k with
  | Some s => m_is_playscreen s
  | None => false
  end.

(** The manager as the constructor leaves it. *)
Definition constructed : setmaster pattern :=
  {| m_rows := c_rows; m_columns := c_columns;
     m_set_count := int_wrap (c_rows * c_columns);
     m_container :=
       <[limit := screenset_new limit c_rows c_columns]>
         {[ 0 := set_is_playscreen true (screenset_new 0 c_rows c_columns) ]};
     m_playscreen := 0;
     m_playscreen_pointer := Some 0 |}.

End Calls.

(** ** States and predicates used in the statements *)

Section Statements.

Context {pattern : Type}.
Implicit Types (m : gmap Z (screenset pattern)) (s : screenset pattern)
  (sm : setmaster pattern).

(** The state in which the existing-set path of [set_playscreen] leaves the
    manager: the set keyed by the stored play-screen number is unmarked, the
    set keyed [setno] is marked, and number and pointer designate it. *)
Definition activate sm (setno : Z) : setmaster pattern :=
  {| m_rows := m_rows sm; m_columns := m_columns sm;
     m_set_count := m_set_count sm;
     m_container :=
       alter (set_is_playscreen true) setno
         (alter (set_is_playscreen false) (m_playscreen sm) (m_container sm));
     m_playscreen := setno;
     m_playscreen_pointer := Some setno |}.

(** The state [set_playscreen] ends in, whatever its argument. *)
Definition set_playscreen_result sm (setno : Z) : setmaster pattern * bool :=
  if (setno >=? 0) && (setno <? limit)
  then (activate (add_set sm setno).1 setno, true)
  else (sm, false).

(** The state [reset] ends in. *)
Definition after_reset sm : setmaster pattern :=
  {| m_rows := m_rows sm; m_columns := m_columns sm;
     m_set_count := m_set_count sm;
     m_container :=
       <[limit := screenset_new limit (m_rows sm) (m_columns sm)]>
         {[ 0 := set_is_playscreen true (screenset_new 0 (m_rows sm) (m_columns sm)) ]};
     m_playscreen := 0;
     m_playscreen_pointer := Some 0 |}.

(** What the specification asks of the state after a reset. *)
Definition reset_state sm : Prop :=
  (exists s, m_container sm !! 0 = Some s /\ m_is_playscreen s = true)
  /\ m_playscreen sm = 0
  /\ m_playscreen_pointer sm = Some 0
  /\ (exists s, m_container sm !! limit = Some s /\ m_is_playscreen s = false)
  /\ m_playscreen sm <> limit.

(** Every own number is also a key, and no two stored sets share their own
    number. *)
Definition numbered m : Prop :=
  (forall k s, m !! k = Some s -> is_Some (m !! m_set_number s))
  /\ (forall k k' s s', m !! k = Some s -> m !! k' = Some s' ->
        m_set_number s = m_set_number s' -> k = k').

Definition consistent sm : Prop :=
  numbered (m_container sm) /\ is_Some (m_container sm !! m_playscreen sm).

(** Only the set keyed by the stored play-screen number is flagged. *)
Definition flag_follows_number sm : Prop :=
  forall k, marked sm k = true -> k = m_playscreen sm.

Definition swap_free (cs : list call) : Prop :=
  Forall (fun c => match c with SwapSets _ _ => False | _ => True end) cs.

End Statements.

(** ** Further predicates on states *)

Section StatementsMore.

Context {pattern : Type}.
Implicit Types (m : gmap Z (screenset pattern)) (s : screenset pattern)
  (sm : setmaster pattern).

(** Set 0 and the dummy set are stored, the play-screen number is a key in
    [0, limit) and the pointer designates the set under it, and the manager
    and every stored set have the default geometry. *)
Definition standing sm : Prop :=
  is_Some (m_container sm !! 0)
  /\ is_Some (m_container sm !! limit)
  /\ 0 <= m_playscreen sm < limit
  /\ is_Some (m_container sm !! m_playscreen sm)
  /\ m_playscreen_pointer sm = Some (m_playscreen sm)
  /\ m_rows sm = c_rows /\ m_columns sm = c_columns
  /\ (forall k s, m_container sm !! k = Some s ->
      s_rows s = c_rows /\ s_columns s = c_columns).

(** Every key is the own number of a stored set. *)
Definition keys_numbered m : Prop :=
  forall k, is_Some (m !! k) -> exists k' s, m !! k' = Some s /\ m_set_number s = k.


(** No call of the sequence is a [reset]. *)
Definition reset_free (cs : list call) : Prop :=
  Forall (fun c => match c with Reset => False | _ => True end) cs.

End StatementsMore.

(** ** Sample managers and handlers *)

Module Samples.

(** Every set but the dummy counts as usable. *)
Definition not_dummy (s : screenset unit) : bool := negb (m_set_number s =? limit).

(** A handler that counts its calls and reports failure on the second. *)
Definition fail_second : sethandler unit nat :=
  fun h sset _ => (S h, sset, (S h <? 2)%nat).

(** The manager after construction, [add_set(1)] and [add_set(2)]. *)
Definition three_sets : setmaster unit :=
  (add_set (add_set constructed 1).1 2).1.

(** A manager that stores the dummy set only. *)
Definition dummy_only : setmaster unit :=
  with_container {[ limit := screenset_new limit c_rows c_columns ]} constructed.

End Samples.

(** ** Sample managers with slot content *)

Module SwapSamples.




(** A set-handler that renumbers the set it is given: 7 for the indices 0 and
    1, 8 from then on. *)
Definition renumber : sethandler unit nat :=
  fun h sset index =>
    (S h, change_set_number (if index <? 2 then 7 else 8) sset, true).

End SwapSamples.

(** * Properties *)

Lemma int_wrap_small z : int_min <= z <= int_max -> int_wrap z = z.
Proof.
  unfold int_wrap, int_min, int_max. intros Hz.
  rewrite Z.mod_small; lia.
Qed.

(** ** The iteration order *)

Section Bindings.

Context {pattern : Type}.
Implicit Types (m : gmap Z (screenset pattern)) (s : screenset pattern).


Lemma bindings_perm m : bindings m ≡ₚ map_to_list m.
Proof. apply merge_sort_Permutation. Qed.

Lemma elem_of_bindings m k s : (k, s) ∈ bindings m <-> m !! k = Some s.
Proof. rewrite bindings_perm. apply elem_of_map_to_list. Qed.

Lemma bindings_keys_NoDup m : NoDup (bindings m).*1.
Proof. rewrite bindings_perm. apply NoDup_fst_map_to_list. Qed.

Lemma bindings_sorted m : StronglySorted key_le (bindings m).
Proof. apply StronglySorted_merge_sort; apply _. Qed.

(** Iteration visits the keys in strictly ascending order. *)
Lemma bindings_ascending m : StronglySorted Z.lt (bindings m).*1.
Proof.
  pose proof (bindings_sorted m) as Hs.
  pose proof (bindings_keys_NoDup m) as Hn.
  induction Hs as [|[k s] l Hl IH Hall]; simpl in *; [constructor|].
  apply NoDup_cons in Hn as [Hk Hn].
  constructor; [by apply IH|].
  apply Forall_fmap, Forall_forall. intros [k' s'] Hin. simpl.
  rewrite Forall_forall in Hall. specialize (Hall _ Hin).
  unfold key_le in Hall. simpl in Hall.
  assert (k <> k'); [|lia].
  intros ->. apply Hk. apply list_elem_of_fmap. by exists (k', s').
Qed.

Lemma bindings_empty : bindings (∅ : gmap Z (screenset pattern)) = [].
Proof.
  apply Permutation_nil_r. rewrite bindings_perm. by rewrite map_to_list_empty.
Qed.

End Bindings.

(** ** Closed forms of the mutators *)

Section Mutators.

Context {pattern : Type}.
Implicit Types (m : gmap Z (screenset pattern)) (s : screenset pattern)
  (sm : setmaster pattern).

Lemma through_find m k f : through (container_find m k) f m = alter f k m.
Proof.
  unfold container_find. destruct (m !! k) eqn:Hk; simpl; [done|].
  apply map_eq. intros j. rewrite lookup_alter.
  case_decide; [subst; by rewrite Hk|done].
Qed.

Lemma lookup_alter_Some m f k j s :
  m !! j = Some s ->
  alter f k m !! j = Some (if decide (k = j) then f s else s).
Proof.
  intros Hs. rewrite lookup_alter. case_decide; [subst|]; by rewrite Hs.
Qed.

Lemma lookup_alter_None m f k j : m !! j = None -> alter f k m !! j = None.
Proof.
  intros Hs. rewrite lookup_alter. case_decide; [subst|]; by rewrite Hs.
Qed.

Lemma lookup_alter_inv m f k j s' :
  alter f k m !! j = Some s' ->
  exists s, m !! j = Some s /\ s' = if decide (k = j) then f s else s.
Proof.
  intros Hs. destruct (m !! j) as [s|] eqn:Hj.
  - erewrite lookup_alter_Some in Hs by done. injection Hs as <-. eauto.
  - by rewrite lookup_alter_None in Hs.
Qed.


Lemma in_range_test (setno : Z) :
  0 <= setno < limit -> (setno >=? 0) && (setno <? limit) = true.
Proof. intros. apply andb_true_iff. split; lia. Qed.

Lemma set_playscreen_rec_present fuel sm setno :
  0 <= setno < limit -> is_Some (m_container sm !! setno) ->
  set_playscreen_rec (S fuel) sm setno = Done (activate sm setno, true).
Proof.
  intros Hr [s Hs]. simpl. rewrite in_range_test by done.
  rewrite through_find. unfold container_find. rewrite Hs. simpl.
  unfold container_at. simpl.
  erewrite lookup_alter_Some; [reflexivity|].
  by apply lookup_alter_Some.
Qed.

Lemma add_set_absent sm setno :
  m_container sm !! setno = None ->
  add_set sm setno =
    (with_container
       (<[setno := screenset_new setno (m_rows sm) (m_columns sm)]> (m_container sm)) sm,
     Some setno).
Proof. intros Hn. unfold add_set, container_insert. by rewrite Hn. Qed.

Lemma add_set_present sm setno :
  is_Some (m_container sm !! setno) -> add_set sm setno = (sm, Some setno).
Proof.
  intros [s Hs]. unfold add_set, container_insert. rewrite Hs. simpl.
  by destruct sm.
Qed.

Lemma add_set_stores sm setno :
  is_Some (m_container (add_set sm setno).1 !! setno).
Proof.
  destruct (m_container sm !! setno) eqn:Hk.
  - rewrite add_set_present by eauto. simpl. eauto.
  - rewrite add_set_absent by done. simpl. rewrite lookup_insert_eq. eauto.
Qed.

Lemma add_set_playscreen sm setno :
  m_playscreen (add_set sm setno).1 = m_playscreen sm.
Proof. done. Qed.

Lemma add_set_marked sm setno k :
  marked (add_set sm setno).1 k = marked sm k.
Proof.
  destruct (m_container sm !! setno) eqn:Hk.
  - by rewrite add_set_present by eauto.
  - rewrite add_set_absent by done. unfold marked. simpl.
    destruct (decide (setno = k)) as [<-|Hne].
    + by rewrite lookup_insert_eq, Hk.
    + by rewrite lookup_insert_ne.
Qed.

Lemma alter_mark_twice m k flag :
  alter (set_is_playscreen flag) k (alter (set_is_playscreen flag) k m)
  = alter (set_is_playscreen flag) k m.
Proof.
  apply map_eq. intros j. rewrite !lookup_alter.
  rewrite (decide_True (P := k = k)) by done.
  case_decide; [|done]. by destruct (m !! k).
Qed.

Lemma set_playscreen_rec_absent fuel sm setno :
  0 <= setno < limit -> m_container sm !! setno = None ->
  set_playscreen_rec (S (S fuel)) sm setno
  = Done (activate (add_set sm setno).1 setno, true).
Proof.
  intros Hr Hn.
  change (set_playscreen_rec (S (S fuel)) sm setno) with
    (if (setno >=? 0) && (setno <? limit) then
       '(sm3, result) ← (match container_find (m_container sm) setno with
          | Some _ =>
              Done (with_container
                      (through (container_find (m_container sm) setno)
                         (set_is_playscreen true)
                         (m_container (with_playscreen setno (with_container
                            (through (container_find (m_container sm) (m_playscreen sm))
                               (set_is_playscreen false) (m_container sm)) sm))))
                      (with_playscreen setno (with_container
                            (through (container_find (m_container sm) (m_playscreen sm))
                               (set_is_playscreen false) (m_container sm)) sm)), true)
          | None =>
              let '(sm1, setp) := add_set sm setno in
              match setp with
              | Some _ =>
                  '(sm2, _) ← set_playscreen_rec (S fuel) sm1 setno;
                  Done (with_container
                          (through setp (set_is_playscreen true) (m_container sm2)) sm2,
                        true)
              | None => Done (sm1, false)
              end
          end : outcome (setmaster pattern * bool));
       let sm4 := if result : bool then sm3 else with_playscreen 0 sm3 in
       p ← container_at (m_container sm4) (m_playscreen sm4);
       Done (with_pointer p sm4, result)
     else Done (sm, false)).
  rewrite in_range_test by done.
  unfold container_find at 1. rewrite Hn.
  rewrite add_set_absent by done.
  rewrite set_playscreen_rec_present; [|done|simpl; by rewrite lookup_insert_eq].
  simpl. rewrite alter_mark_twice.
  unfold container_at. simpl.
  erewrite lookup_alter_Some; [reflexivity|].
  apply lookup_alter_Some, lookup_insert_eq.
Qed.

Lemma set_playscreen_rec_outside fuel sm setno :
  setno < 0 \/ limit <= setno ->
  set_playscreen_rec (S fuel) sm setno = Done (sm, false).
Proof.
  intros Hr. simpl.
  replace ((setno >=? 0) && (setno <? limit)) with false; [done|].
  symmetry. apply andb_false_iff. lia.
Qed.


(** Two units of fuel always suffice: [set_playscreen] returns, and never
    throws. *)
Lemma set_playscreen_rec_enough fuel sm setno :
  set_playscreen_rec (S (S fuel)) sm setno = Done (set_playscreen_result sm setno).
Proof.
  unfold set_playscreen_result.
  destruct ((setno >=? 0) && (setno <? limit)) eqn:Hr.
  - apply andb_true_iff in Hr as [? ?].
    destruct (m_container sm !! setno) as [s|] eqn:Hs.
    + rewrite add_set_present by eauto.
      apply set_playscreen_rec_present; [lia|eauto].
    + apply set_playscreen_rec_absent; [lia|done].
  - apply set_playscreen_rec_outside. apply andb_false_iff in Hr. lia.
Qed.

Lemma set_playscreen_done sm setno :
  set_playscreen sm setno = Done (set_playscreen_result sm setno).
Proof. apply set_playscreen_rec_enough. Qed.


Lemma reset_done sm : reset sm = Done (after_reset sm).
Proof.
  unfold reset. rewrite add_set_absent by (simpl; apply lookup_empty).
  rewrite set_playscreen_done. unfold set_playscreen_result.
  rewrite in_range_test by (unfold limit; lia).
  rewrite add_set_present by (simpl; rewrite lookup_insert_eq; eauto).
  unfold mbind, outcome_bind. cbn -[add_set]. rewrite add_set_absent.
  2:{ simpl. apply lookup_alter_None, lookup_alter_None.
      by rewrite lookup_insert_ne. }
  unfold after_reset, with_container, activate. simpl. do 2 f_equal.
  apply map_eq. intros j.
  destruct (decide (limit = j)) as [<-|Hl]; [by rewrite !lookup_insert_eq|].
  rewrite !lookup_insert_ne by done.
  destruct (decide (0 = j)) as [<-|Hj].
  - erewrite lookup_alter_Some; [|apply lookup_alter_Some, lookup_insert_eq].
    rewrite lookup_singleton_eq, decide_True by done.
    by case_decide.
  - rewrite lookup_singleton_ne by done.
    apply lookup_alter_None, lookup_alter_None. by rewrite lookup_insert_ne.
Qed.

End Mutators.

(** ** Lookup by value *)

Section FindByValue.

Context {pattern : Type}.
Implicit Types (m : gmap Z (screenset pattern)) (s : screenset pattern)
  (sm : setmaster pattern) (l : list (Z * screenset pattern)).

Lemma find_by_value_loop_None l setno :
  find_by_value_loop l setno = None <->
  forall k s, (k, s) ∈ l -> m_set_number s <> setno.
Proof.
  induction l as [|[k0 s0] l IH]; simpl.
  - split; [|done]. intros _ k s Hin. by apply elem_of_nil in Hin.
  - destruct (Z.eqb_spec (m_set_number s0) setno) as [He|He].
    + split; [done|]. intros Hall. exfalso.
      apply (Hall k0 s0); [left|done].
    + rewrite IH. split.
      * intros Hall k s Hin. apply elem_of_cons in Hin as [[= -> ->]|Hin]; eauto.
      * intros Hall k s Hin. apply (Hall k s). by right.
Qed.

Lemma find_by_value_loop_Some l setno k :
  find_by_value_loop l setno = Some k ->
  exists s, (k, s) ∈ l /\ m_set_number s = setno.
Proof.
  induction l as [|[k0 s0] l IH]; simpl; [done|].
  destruct (Z.eqb_spec (m_set_number s0) setno) as [He|He].
  - intros [= <-]. exists s0. split; [left|done].
  - intros Hf. destruct (IH Hf) as (s & Hin & Hs). exists s. split; [by right|done].
Qed.

Lemma find_by_value_None sm setno :
  find_by_value sm setno = None <-> ~ occurs setno sm.
Proof.
  unfold find_by_value. rewrite find_by_value_loop_None. split.
  - intros Hall (k & s & Hk & Hs). apply (Hall k s); [|done].
    by apply elem_of_bindings.
  - intros Hno k s Hin Hs. apply Hno. exists k, s.
    split; [by apply elem_of_bindings|done].
Qed.

Lemma find_by_value_Some sm setno k :
  find_by_value sm setno = Some k ->
  exists s, m_container sm !! k = Some s /\ m_set_number s = setno.
Proof.
  intros Hf. apply find_by_value_loop_Some in Hf as (s & Hin & Hs).
  exists s. split; [by apply elem_of_bindings|done].
Qed.

Lemma swap_sets_not_found sm set0 set1 :
  find_by_value sm set0 = None \/ find_by_value sm set1 = None ->
  swap_sets sm set0 set1 = (sm, false).
Proof.
  unfold swap_sets. intros [-> | ->]; [done|].
  by destruct (find_by_value sm set0).
Qed.

End FindByValue.

(** ** The claims that hold in every state *)

Section EveryState.

Context {pattern : Type}.
Implicit Types (m : gmap Z (screenset pattern)) (s : screenset pattern)
  (sm : setmaster pattern).

Lemma setmaster_ctor_done (unassigned : Z) :
  setmaster_ctor c_rows c_columns unassigned = Done (@constructed pattern).
Proof. unfold setmaster_ctor. by rewrite reset_done. Qed.


(** C2.  [reset] always returns, from whatever state it is called in, and so
    does the constructor, which calls it; in the state they leave, a set keyed
    0 exists, is flagged and is the stored play-screen (number and pointer),
    and the dummy set keyed [limit] exists, is not flagged and is not the
    play-screen. *)
Theorem reset_establishes_playscreen :
  (forall sm, exists sm', reset sm = Done sm' /\ reset_state sm')
  /\ (forall unassigned : Z,
       exists sm', setmaster_ctor (pattern := pattern) c_rows c_columns unassigned
                   = Done sm' /\ reset_state sm').
Proof.
  assert (forall sm, reset_state (after_reset sm)) as Hok.
  { intros sm. unfold reset_state, after_reset. simpl.
    split; [|split; [done|split; [done|split; [|done]]]].
    - eexists. split;
        [rewrite lookup_insert_ne by done; apply lookup_singleton_eq|reflexivity].
    - eexists. split; [apply lookup_insert_eq|reflexivity]. }
  split.
  - intros sm. exists (after_reset sm). split; [apply reset_done|apply Hok].
  - intros u. eexists. split; [apply reset_done|apply Hok].
Qed.

(** C6.  Outside of [0, limit), [set_playscreen] returns [false] and the
    manager it leaves is the one it was given: container, flags, play-screen
    number and pointer are all as before. *)
Theorem set_playscreen_out_of_range sm (setno : Z) :
  setno < 0 \/ limit <= setno ->
  set_playscreen sm setno = Done (sm, false).
Proof. apply set_playscreen_rec_outside. Qed.

(** C8.  When the set count [m_rows * m_columns] fits an [int],
    [calculate_set] is [m_rows * column + row] on the grid and injective
    there, and is 0 as soon as the row or the column is off the grid. *)
Theorem calculate_set_column_major sm :
  m_rows sm * m_columns sm <= int_max ->
  (forall row column,
     0 <= row < m_rows sm -> 0 <= column < m_columns sm ->
     calculate_set sm row column = m_rows sm * column + row)
  /\ (forall row column row' column',
       0 <= row < m_rows sm -> 0 <= column < m_columns sm ->
       0 <= row' < m_rows sm -> 0 <= column' < m_columns sm ->
       calculate_set sm row column = calculate_set sm row' column' ->
       row = row' /\ column = column')
  /\ (forall row column,
       ~ (0 <= row < m_rows sm /\ 0 <= column < m_columns sm) ->
       calculate_set sm row column = 0).
Proof.
  intros Hfit.
  assert (forall row column,
     0 <= row < m_rows sm -> 0 <= column < m_columns sm ->
     calculate_set sm row column = m_rows sm * column + row) as Hval.
  { intros row column Hr Hc. unfold calculate_set.
    replace ((row <? 0) || (row >=? m_rows sm) || (column <? 0)
             || (column >=? m_columns sm)) with false
      by (symmetry; rewrite !orb_false_iff; lia).
    assert (0 <= m_rows sm * column) by nia.
    assert (m_rows sm * column + row < m_rows sm * m_columns sm) by nia.
    unfold int_max in Hfit.
    rewrite (int_wrap_small (m_rows sm * column)) by (unfold int_min, int_max; lia).
    apply int_wrap_small. unfold int_min, int_max. lia. }
  split; [exact Hval|]. split.
  - intros row column row' column' Hr Hc Hr' Hc'.
    rewrite !Hval by done. intros He.
    assert (column = column') by nia. subst. lia.
  - intros row column Hout. unfold calculate_set.
    replace ((row <? 0) || (row >=? m_rows sm) || (column <? 0)
             || (column >=? m_columns sm)) with true; [done|].
    symmetry. rewrite !orb_true_iff. lia.
Qed.

(** C9.  [add_set] returns an iterator to the set keyed [setno]; it stores a
    new, unflagged set with the manager's dimensions when the key is free and
    leaves the container as it is otherwise; in both cases the sets already
    stored, the flag read under every key, and the play-screen number and
    pointer are as before. *)
Theorem add_set_frame sm (setno : Z) :
  (add_set sm setno).2 = Some setno
  /\ (m_container sm !! setno = None ->
      m_container (add_set sm setno).1
      = <[setno := screenset_new setno (m_rows sm) (m_columns sm)]> (m_container sm))
  /\ (is_Some (m_container sm !! setno) ->
      m_container (add_set sm setno).1 = m_container sm)
  /\ is_Some (m_container (add_set sm setno).1 !! setno)
  /\ (forall k s, m_container sm !! k = Some s ->
      m_container (add_set sm setno).1 !! k = Some s)
  /\ (forall k, marked (add_set sm setno).1 k = marked sm k)
  /\ m_playscreen (add_set sm setno).1 = m_playscreen sm
  /\ m_playscreen_pointer (add_set sm setno).1 = m_playscreen_pointer sm.
Proof.
  destruct (m_container sm !! setno) as [s0|] eqn:Hk.
  - rewrite add_set_present by eauto. simpl.
    repeat split; done.
  - rewrite add_set_absent by done. simpl.
    repeat split; try done.
    + rewrite lookup_insert_eq. eauto.
    + intros k s Hs. rewrite lookup_insert_ne; [done|]. congruence.
    + intros k. rewrite <- (add_set_marked sm setno k).
      by rewrite add_set_absent.
Qed.

(** C4.  When one of the two numbers is the own number of no stored set,
    [swap_sets] returns [false] and the manager, hence every set in it, is
    left as it was. *)
Theorem swap_sets_all_or_nothing sm (set0 set1 : Z) :
  ~ occurs set0 sm \/ ~ occurs set1 sm ->
  swap_sets sm set0 set1 = (sm, false).
Proof.
  intros Hno. apply swap_sets_not_found.
  destruct Hno as [Hno|Hno]; apply find_by_value_None in Hno; auto.
Qed.

End EveryState.

(** ** The visitors *)

Lemma StronglySorted_sublist {A} (R : relation A) (l1 l2 : list A) :
  sublist l1 l2 -> StronglySorted R l2 -> StronglySorted R l1.
Proof.
  intros Hsub Hs. revert l1 Hsub.
  induction Hs as [|x l2 Hs IH Hall]; intros l1 Hsub.
  - apply sublist_nil_r in Hsub as ->. constructor.
  - apply sublist_cons_r in Hsub as [Hsub|(l1' & -> & Hsub)]; [by apply IH|].
    constructor; [by apply IH|].
    rewrite Forall_forall in *. intros y Hy. apply Hall.
    by eapply elem_of_sublist.
Qed.

Section VisitorProperties.

Context {pattern H slothandler : Type}.
Variable usable : screenset pattern -> bool.
Variable set_slot_routine :
  sethandler pattern H -> slothandler -> H -> screenset pattern
  -> H * screenset pattern * bool.
Variable slot_routine :
  slothandler -> H -> screenset pattern -> H * screenset pattern * bool.

Implicit Types (l : list (Z * screenset pattern)) (m : gmap Z (screenset pattern))
  (sm : setmaster pattern) (s : sethandler pattern H) (h : H).

Lemma set_function_loop_unusable s l result index m h calls :
  Forall (fun sset => usable sset.2 = false) l ->
  set_function_loop usable s l result index m h calls
  = mk_visit result m h calls.
Proof.
  induction 1 as [|sset l Hu _ IH]; simpl; [done|]. by rewrite Hu.
Qed.

Lemma visit_loop_unusable f l result m h calls :
  Forall (fun sset => usable sset.2 = false) l ->
  visit_loop usable f l result m h calls = mk_visit result m h calls.
Proof.
  induction 1 as [|sset l Hu _ IH]; simpl; [done|]. by rewrite Hu.
Qed.

Lemma bindings_unusable sm :
  (forall k e, m_container sm !! k = Some e -> usable e = false) ->
  Forall (fun sset => usable sset.2 = false) (bindings (m_container sm)).
Proof.
  intros Hno. apply Forall_forall. intros [k e] Hin.
  apply elem_of_bindings in Hin. by apply (Hno k).
Qed.

(** C10.  When no stored set is usable, each of the three overloads of
    [set_function] returns [false] with no call made: the record of calls is
    empty, and the container and the handler's state are untouched. *)
Theorem set_function_without_usable_sets sm s (p : slothandler) h :
  (forall k e, m_container sm !! k = Some e -> usable e = false) ->
  set_function usable sm s h = mk_visit false (m_container sm) h []
  /\ set_function_sets_slots usable set_slot_routine sm s p h
     = mk_visit false (m_container sm) h []
  /\ set_function_slots usable slot_routine sm p h
     = mk_visit false (m_container sm) h [].
Proof.
  intros Hno. apply bindings_unusable in Hno.
  unfold set_function, set_function_sets_slots, set_function_slots.
  by rewrite set_function_loop_unusable, !visit_loop_unusable.
Qed.

Lemma usable_sets_ascending sm :
  StronglySorted Z.lt (usable_sets usable sm).*1.
Proof.
  eapply StronglySorted_sublist; [|apply (bindings_ascending (m_container sm))].
  unfold usable_sets. apply fmap_sublist, sublist_filter.
Qed.

Lemma set_function_loop_fails s l : forall (k : nat) result index m h calls,
  0 <= index -> index + Z.of_nat k - 1 <= int_max ->
  fails_on_call s (filter (fun sset => usable sset.2 = true) l) index h k = true ->
  let v := set_function_loop usable s l result index m h calls in
  v_result v = false
  /\ v_calls v
     = calls ++ zip (take k (filter (fun sset => usable sset.2 = true) l)).*1
                    (seqZ index (Z.of_nat k))
  /\ (forall j, j ∉ (take k (filter (fun sset => usable sset.2 = true) l)).*1 ->
      v_container v !! j = m !! j).
Proof.
  induction l as [|[key e] l IH]; intros k result index m h calls Hi Hfit Hf.
  - rewrite filter_nil in Hf. by destruct k.
  - simpl. destruct (usable e) eqn:Hu.
    + rewrite filter_cons_True in * by done.
      destruct k as [|k']; [done|]. simpl in Hf.
      unfold screenset_set_function.
      destruct (s h e index) as [[h' e'] r]. simpl.
      rewrite seqZ_cons by lia. simpl.
      destruct k' as [|k''].
      * apply negb_true_iff in Hf as ->. simpl.
        split; [done|]. split; [done|].
        intros j Hj. apply lookup_insert_ne. intros ->. apply Hj. left.
      * apply andb_true_iff in Hf as [-> Hf].
        rewrite int_wrap_small in * by (unfold int_min; lia).
        replace (Z.pred (Z.of_nat (S (S k'')))) with (Z.of_nat (S k'')) by lia.
        destruct (IH (S k'') true (index + 1) (<[key:=e']> m) h'
                    (calls ++ [(key, index)])) as (Hr & Hc & Hm);
          [lia|lia|done|].
        split; [done|]. split.
        -- rewrite Hc. by rewrite <- app_assoc.
        -- intros j Hj. rewrite Hm.
           ++ apply lookup_insert_ne. intros ->. apply Hj. left.
           ++ intros Hin. apply Hj. by right.
    + rewrite filter_cons_False in * by (simpl; congruence).
      by apply IH.
Qed.

(** C7.  When the handler reports success on its first [k - 1] calls and
    failure on call [k], [set_function] returns [false] after exactly [k]
    calls: they are made on the first [k] usable sets, which come in
    ascending key order, with the indices 0, 1, ..., [k - 1], and every set
    past the failing one is left as it was. *)
Theorem set_function_stops_at_failure sm s h (k : nat) :
  Z.of_nat (length (usable_sets usable sm)) <= int_max ->
  (1 <= k <= length (usable_sets usable sm))%nat ->
  fails_on_call s (usable_sets usable sm) 0 h k = true ->
  v_result (set_function usable sm s h) = false
  /\ v_calls (set_function usable sm s h)
     = zip (take k (usable_sets usable sm)).*1 (seqZ 0 (Z.of_nat k))
  /\ length (v_calls (set_function usable sm s h)) = k
  /\ StronglySorted Z.lt (usable_sets usable sm).*1
  /\ (forall j, j ∉ (take k (usable_sets usable sm)).*1 ->
      v_container (set_function usable sm s h) !! j = m_container sm !! j).
Proof.
  intros Hfit Hk Hf.
  destruct (set_function_loop_fails s (bindings (m_container sm)) k false 0
              (m_container sm) h []) as (Hr & Hc & Hm); [lia|lia|done|].
  fold (usable_sets usable sm) in Hc, Hm. fold (set_function usable sm s h) in *.
  split; [done|]. split; [done|]. split.
  - rewrite Hc. simpl. rewrite length_zip, length_fmap, length_take, length_seqZ. lia.
  - split; [apply usable_sets_ascending|done].
Qed.

Lemma visit_loop_fails f l : forall (k : nat) result m h calls,
  fails_on_visit f (filter (fun sset => usable sset.2 = true) l) h k = true ->
  let v := visit_loop usable f l result m h calls in
  v_result v = false
  /\ v_calls v = calls ++ (take k (filter (fun sset => usable sset.2 = true) l)).*1
  /\ (forall j, j ∉ (take k (filter (fun sset => usable sset.2 = true) l)).*1 ->
      v_container v !! j = m !! j).
Proof.
  induction l as [|[key e] l IH]; intros k result m h calls Hf.
  - rewrite filter_nil in Hf. by destruct k.
  - simpl. destruct (usable e) eqn:Hu.
    + rewrite filter_cons_True in * by done.
      destruct k as [|k']; [done|]. simpl in Hf.
      destruct (f h e) as [[h' e'] r]. simpl.
      destruct k' as [|k''].
      * apply negb_true_iff in Hf as ->. simpl.
        split; [done|]. split; [done|].
        intros j Hj. apply lookup_insert_ne. intros ->. apply Hj. left.
      * apply andb_true_iff in Hf as [-> Hf].
        destruct (IH (S k'') true (<[key:=e']> m) h' (calls ++ [key]) Hf)
          as (Hr & Hc & Hm).
        split; [done|]. split.
        -- rewrite Hc. by rewrite <- app_assoc.
        -- intros j Hj. rewrite Hm.
           ++ apply lookup_insert_ne. intros ->. apply Hj. left.
           ++ intros Hin. apply Hj. by right.
    + rewrite filter_cons_False in * by (simpl; congruence).
      by apply IH.
Qed.

(** The other two overloads stop in the same way, at the first usable set on
    which the screen-set's routine reports failure. *)
Lemma set_function_overloads_stop_at_failure sm s (p : slothandler) h (k : nat) :
  (fails_on_visit (set_slot_routine s p) (usable_sets usable sm) h k = true ->
   v_result (set_function_sets_slots usable set_slot_routine sm s p h) = false
   /\ v_calls (set_function_sets_slots usable set_slot_routine sm s p h)
      = (take k (usable_sets usable sm)).*1)
  /\ (fails_on_visit (slot_routine p) (usable_sets usable sm) h k = true ->
      v_result (set_function_slots usable slot_routine sm p h) = false
      /\ v_calls (set_function_slots usable slot_routine sm p h)
         = (take k (usable_sets usable sm)).*1).
Proof.
  split; intros Hf.
  - destruct (visit_loop_fails (set_slot_routine s p) (bindings (m_container sm))
                k false (m_container sm) h [] Hf) as (Hr & Hc & _).
    by split.
  - destruct (visit_loop_fails (slot_routine p) (bindings (m_container sm))
                k false (m_container sm) h [] Hf) as (Hr & Hc & _).
    by split.
Qed.

End VisitorProperties.

(** ** Reachable states *)

Section Reachable.

Context {pattern : Type}.
Implicit Types (m : gmap Z (screenset pattern)) (s : screenset pattern)
  (sm : setmaster pattern).


Lemma numbered_insert_new m (setno rows columns : Z) :
  numbered m -> m !! setno = None ->
  numbered (<[setno := screenset_new setno rows columns]> m).
Proof.
  intros [Hkey Huniq] Hn. split.
  - intros k s. destruct (decide (setno = k)) as [<-|Hne].
    + rewrite lookup_insert_eq. intros [= <-]. simpl.
      rewrite lookup_insert_eq. eauto.
    + rewrite lookup_insert_ne by done. intros Hs.
      destruct (Hkey k s Hs) as [s' Hs'].
      destruct (decide (setno = m_set_number s)) as [->|Hne'].
      * rewrite lookup_insert_eq. eauto.
      * rewrite lookup_insert_ne by done. eauto.
  - intros k k' s s'.
    destruct (decide (setno = k)) as [<-|Hne];
      destruct (decide (setno = k')) as [<-|Hne']; [done|..].
    + rewrite lookup_insert_eq, lookup_insert_ne by done.
      intros [= <-] Hs' He. simpl in He.
      destruct (Hkey k' s' Hs') as [? Hx]. rewrite <- He in Hx. congruence.
    + rewrite lookup_insert_eq, lookup_insert_ne by done.
      intros Hs [= <-] He. simpl in He.
      destruct (Hkey k s Hs) as [? Hx]. rewrite He in Hx. congruence.
    + rewrite !lookup_insert_ne by done. apply Huniq.
Qed.

Lemma numbered_alter m (f : screenset pattern -> screenset pattern) (k0 : Z) :
  (forall s, m_set_number (f s) = m_set_number s) ->
  numbered m -> numbered (alter f k0 m).
Proof.
  intros Hf [Hkey Huniq].
  assert (forall k s, alter f k0 m !! k = Some s ->
            exists s1, m !! k = Some s1 /\ m_set_number s1 = m_set_number s)
    as Hback.
  { intros k s Hs. apply lookup_alter_inv in Hs as (s1 & Hs1 & ->).
    exists s1. split; [done|]. by case_decide. }
  split.
  - intros k s Hs. destruct (Hback k s Hs) as (s1 & Hs1 & <-).
    destruct (Hkey k s1 Hs1) as [s2 Hs2].
    erewrite lookup_alter_Some by done. eauto.
  - intros k k' s s' Hs Hs' He.
    destruct (Hback k s Hs) as (s1 & Hs1 & He1).
    destruct (Hback k' s' Hs') as (s1' & Hs1' & He1').
    apply (Huniq k k' s1 s1'); congruence.
Qed.

Lemma numbered_exchange m (k0 k1 : Z) s0 s1 :
  numbered m -> m !! k0 = Some s0 -> m !! k1 = Some s1 ->
  numbered (<[k1 := s0]> (<[k0 := s1]> m)).
Proof.
  intros [Hkey Huniq] H0 H1.
  assert (forall k s, <[k1 := s0]> (<[k0 := s1]> m) !! k = Some s ->
            exists k', m !! k' = Some s
              /\ (k = k1 /\ k' = k0 \/ k = k0 /\ k' = k1 \/
                  k = k' /\ k <> k0 /\ k <> k1)) as Hback.
  { intros k s. destruct (decide (k1 = k)) as [<-|Hne1].
    - rewrite lookup_insert_eq. intros [= <-]. exists k0. auto.
    - rewrite lookup_insert_ne by done.
      destruct (decide (k0 = k)) as [<-|Hne0].
      + rewrite lookup_insert_eq. intros [= <-]. exists k1. auto.
      + rewrite lookup_insert_ne by done. intros Hs. exists k.
        split; [done|]. right. right. auto. }
  assert (forall k, is_Some (m !! k) ->
            is_Some (<[k1 := s0]> (<[k0 := s1]> m) !! k)) as Hdom.
  { intros k Hk. destruct (decide (k1 = k)) as [<-|Hne1].
    - rewrite lookup_insert_eq. eauto.
    - rewrite lookup_insert_ne by done.
      destruct (decide (k0 = k)) as [<-|Hne0].
      + rewrite lookup_insert_eq. eauto.
      + by rewrite lookup_insert_ne. }
  split.
  - intros k s Hs. destruct (Hback k s Hs) as (k' & Hs' & _).
    apply Hdom. by apply (Hkey k').
  - intros k k' s s' Hs Hs' He.
    destruct (Hback k s Hs) as (j & Hj & Hcase).
    destruct (Hback k' s' Hs') as (j' & Hj' & Hcase').
    assert (j = j') as <- by (by apply (Huniq j j' s s')).
    destruct Hcase as [[-> ->]|[[-> ->]|(-> & ? & ?)]];
      destruct Hcase' as [[-> ?]|[[-> ?]|(-> & ? & ?)]]; congruence.
Qed.

Lemma find_by_value_unique sm (setno k : Z) s :
  numbered (m_container sm) ->
  m_container sm !! k = Some s -> m_set_number s = setno ->
  find_by_value sm setno = Some k.
Proof.
  intros [_ Huniq] Hs He.
  destruct (find_by_value sm setno) as [k'|] eqn:Hf.
  - apply find_by_value_Some in Hf as (s' & Hs' & He').
    f_equal. apply (Huniq k' k s' s); congruence.
  - apply find_by_value_None in Hf. exfalso. apply Hf. by exists k, s.
Qed.

Lemma change_set_number_own s : change_set_number (m_set_number s) s = s.
Proof. by destruct s. Qed.

(** The exchange [swap_sets] performs, once the two sets are found. *)
Lemma swap_contents_found m (k0 k1 : Z) s0 s1 :
  m !! k0 = Some s0 -> m !! k1 = Some s1 ->
  swap_contents k0 k1 (m_set_number s0) (m_set_number s1) m
  = <[k1 := s0]> (<[k0 := s1]> m).
Proof.
  intros H0 H1. unfold swap_contents. rewrite H0, H1. simpl.
  apply map_eq. intros j.
  destruct (<[k1:=s0]> (<[k0:=s1]> m) !! j) as [s|] eqn:Hj.
  - erewrite lookup_alter_Some; [|by apply lookup_alter_Some].
    f_equal. destruct (decide (k1 = j)) as [<-|Hne1].
    + rewrite lookup_insert_eq in Hj. injection Hj as <-.
      case_decide.
      * subst. assert (s0 = s1) as <- by congruence.
        by rewrite !change_set_number_own.
      * apply change_set_number_own.
    + rewrite lookup_insert_ne in Hj by done.
      case_decide; [|done]. subst.
      rewrite lookup_insert_eq in Hj. injection Hj as <-.
      apply change_set_number_own.
  - by apply lookup_alter_None, lookup_alter_None.
Qed.

Lemma swap_sets_found sm (k0 k1 : Z) s0 s1 :
  numbered (m_container sm) ->
  m_container sm !! k0 = Some s0 -> m_container sm !! k1 = Some s1 ->
  swap_sets sm (m_set_number s0) (m_set_number s1)
  = (with_container (<[k1 := s0]> (<[k0 := s1]> (m_container sm))) sm, true).
Proof.
  intros Hn H0 H1. unfold swap_sets.
  rewrite (find_by_value_unique sm _ k0 s0), (find_by_value_unique sm _ k1 s1)
    by done.
  by rewrite swap_contents_found.
Qed.

Lemma consistent_add_set sm (setno : Z) :
  consistent sm -> consistent (add_set sm setno).1.
Proof.
  intros [Hn Hp]. destruct (m_container sm !! setno) eqn:Hk.
  - by rewrite add_set_present by eauto.
  - rewrite add_set_absent by done. split; simpl.
    + by apply numbered_insert_new.
    + destruct (decide (setno = m_playscreen sm)) as [->|Hne].
      * rewrite lookup_insert_eq. eauto.
      * by rewrite lookup_insert_ne.
Qed.

Lemma consistent_set_playscreen sm (setno : Z) :
  consistent sm -> consistent (set_playscreen_result sm setno).1.
Proof.
  intros Hc. unfold set_playscreen_result.
  destruct ((setno >=? 0) && (setno <? limit)); [|done].
  destruct (add_set_stores sm setno) as [s Hs].
  destruct (consistent_add_set sm setno Hc) as [Hn _].
  split; simpl.
  - apply numbered_alter; [done|]. by apply numbered_alter.
  - erewrite lookup_alter_Some; [eauto|]. by apply lookup_alter_Some.
Qed.

Lemma consistent_swap_sets sm (set0 set1 : Z) :
  consistent sm -> consistent (swap_sets sm set0 set1).1.
Proof.
  intros [Hn Hp].
  destruct (find_by_value sm set0) as [k0|] eqn:H0.
  2:{ rewrite swap_sets_not_found; [done|by left]. }
  destruct (find_by_value sm set1) as [k1|] eqn:H1.
  2:{ rewrite swap_sets_not_found; [done|by right]. }
  apply find_by_value_Some in H0 as (s0 & H0 & <-).
  apply find_by_value_Some in H1 as (s1 & H1 & <-).
  rewrite (swap_sets_found sm k0 k1 s0 s1) by done. split; simpl.
  - by apply numbered_exchange.
  - destruct (decide (k1 = m_playscreen sm)) as [<-|Hne1].
    + rewrite lookup_insert_eq. eauto.
    + rewrite lookup_insert_ne by done.
      destruct (decide (k0 = m_playscreen sm)) as [<-|Hne0].
      * rewrite lookup_insert_eq. eauto.
      * by rewrite lookup_insert_ne.
Qed.

Lemma consistent_after_reset sm : consistent (after_reset sm).
Proof.
  split; simpl.
  - apply numbered_insert_new.
    + split.
      * intros k s Hs. apply lookup_singleton_Some in Hs as [<- <-]. simpl.
        rewrite lookup_singleton_eq. eauto.
      * intros k k' s s' Hs Hs' _.
        apply lookup_singleton_Some in Hs as [<- _].
        by apply lookup_singleton_Some in Hs' as [<- _].
    + by rewrite lookup_singleton_ne.
  - rewrite lookup_insert_ne by done. rewrite lookup_singleton_eq. eauto.
Qed.

Lemma do_call_done (c : call) sm : exists sm', do_call c sm = Done sm'.
Proof.
  destruct c; simpl; eauto.
  - rewrite set_playscreen_done. destruct (set_playscreen_result sm setno). simpl. eauto.
  - rewrite reset_done. eauto.
Qed.

Lemma consistent_do_call (c : call) sm sm' :
  consistent sm -> do_call c sm = Done sm' -> consistent sm'.
Proof.
  intros Hc. destruct c; simpl.
  - intros [= <-]. by apply consistent_add_set.
  - rewrite set_playscreen_done.
    pose proof (consistent_set_playscreen sm setno Hc) as Hc'.
    destruct (set_playscreen_result sm setno). simpl. by intros [= <-].
  - intros [= <-]. by apply consistent_swap_sets.
  - rewrite reset_done. intros [= <-]. apply consistent_after_reset.
Qed.

Lemma consistent_do_calls (cs : list call) : forall sm sm',
  consistent sm -> do_calls cs sm = Done sm' -> consistent sm'.
Proof.
  induction cs as [|c cs IH]; intros sm sm' Hc; simpl.
  - by intros [= <-].
  - destruct (do_call_done c sm) as [sm1 H1]. rewrite H1. simpl.
    apply IH. by eapply consistent_do_call.
Qed.

(** A manager never runs into a state that is not consistent. *)
Lemma reachable_consistent sm : reachable sm -> consistent sm.
Proof.
  intros (u & cs & Hr). rewrite setmaster_ctor_done in Hr. simpl in Hr.
  eapply consistent_do_calls; [|done].
  apply (consistent_after_reset
           {| m_rows := c_rows; m_columns := c_columns;
              m_set_count := int_wrap (c_rows * c_columns);
              m_container := ∅; m_playscreen := 0;
              m_playscreen_pointer := None |}).
Qed.

(** Every sequence of calls runs to completion. *)
Lemma do_calls_done (cs : list call) : forall sm, exists sm', do_calls cs sm = Done sm'.
Proof.
  induction cs as [|c cs IH]; intros sm; simpl; [eauto|].
  destruct (do_call_done c sm) as [sm1 ->]. simpl. apply IH.
Qed.

End Reachable.

(** ** The play-screen flag without swaps *)

Section SinglePlayscreen.

Context {pattern : Type}.
Implicit Types (sm : setmaster pattern).


Lemma flag_follows_after_reset sm : flag_follows_number (after_reset sm).
Proof.
  intros k. unfold marked. simpl.
  destruct (decide (limit = k)) as [<-|Hl]; [by rewrite lookup_insert_eq|].
  rewrite lookup_insert_ne by done.
  destruct (decide (0 = k)) as [<-|H0]; [done|].
  by rewrite lookup_singleton_ne.
Qed.

Lemma flag_follows_do_call (c : call) sm sm' :
  match c with SwapSets _ _ => False | _ => True end ->
  flag_follows_number sm -> do_call c sm = Done sm' -> flag_follows_number sm'.
Proof.
  intros Hc Hf. destruct c; cbn -[add_set set_playscreen reset]; [| | done |].
  - intros Hd. assert (sm' = (add_set sm setno).1) as -> by congruence.
    intros k. rewrite add_set_marked, add_set_playscreen. apply Hf.
  - rewrite set_playscreen_done. unfold set_playscreen_result.
    destruct ((setno >=? 0) && (setno <? limit)); cbn -[add_set]; intros Hd.
    2:{ by assert (sm' = sm) as -> by congruence. }
    assert (sm' = activate (add_set sm setno).1 setno) as -> by congruence.
    pose proof (add_set_marked sm setno) as Hm.
    intros k. unfold marked, activate. cbn -[add_set].
    rewrite !add_set_playscreen.
    destruct (decide (setno = k)) as [<-|Hne]; [done|].
    rewrite lookup_alter, decide_False by done.
    intros Hk. exfalso.
    destruct (decide (m_playscreen sm = k)) as [<-|Hnp].
    + rewrite lookup_alter, decide_True in Hk by done.
      by destruct (m_container (add_set sm setno).1 !! m_playscreen sm).
    + rewrite lookup_alter, decide_False in Hk by done.
      apply Hnp. symmetry. apply Hf. by rewrite <- Hm.
  - rewrite reset_done. intros [= <-]. apply flag_follows_after_reset.
Qed.

(** Without [swap_sets], at most one set is ever flagged: the one keyed by
    the stored play-screen number. *)
Lemma single_playscreen_without_swap (cs : list call) : forall sm sm',
  swap_free cs -> flag_follows_number sm -> do_calls cs sm = Done sm' ->
  forall k k', marked sm' k = true -> marked sm' k' = true -> k = k'.
Proof.
  induction cs as [|c cs IH]; intros sm sm' Hfree Hf; simpl.
  - intros [= <-] k k' Hk Hk'. by rewrite (Hf k), (Hf k').
  - apply Forall_cons in Hfree as [Hc Hfree].
    destruct (do_call_done c sm) as [sm1 H1]. rewrite H1. simpl.
    apply IH; [done|]. by eapply flag_follows_do_call.
Qed.

(** From a state in which only the recorded play-screen is flagged, a
    successful [set_playscreen] leaves only its target flagged. *)
Lemma set_playscreen_single sm (setno : Z) sm' :
  flag_follows_number sm -> set_playscreen sm setno = Done (sm', true) ->
  forall k, marked sm' k = true -> k = setno.
Proof.
  intros Hf Hd.
  assert (do_call (SetPlayscreen setno) sm = Done sm') as Hc
    by (cbn -[set_playscreen]; by rewrite Hd).
  pose proof (flag_follows_do_call (SetPlayscreen setno) sm sm' I Hf Hc) as Hf'.
  rewrite set_playscreen_done in Hd. unfold set_playscreen_result in Hd.
  destruct ((setno >=? 0) && (setno <? limit)); [|done].
  assert (sm' = activate (add_set sm setno).1 setno) as -> by congruence.
  exact Hf'.
Qed.

End SinglePlayscreen.

(** ** The claims about reachable states *)

Section ReachableClaims.

Context {pattern : Type}.
Implicit Types (m : gmap Z (screenset pattern)) (s : screenset pattern)
  (sm : setmaster pattern).




(** The new-key path of [set_playscreen].  In a state the manager can
    reach, [set_playscreen] of a number in range that is no key yet returns
    [true]; the container gains exactly the
    key [setno], under which a new set with that number is stored and flagged;
    the set keyed by the play-screen number stored before is no longer
    flagged and every other set is as it was; the play-screen number and the
    pointer designate the new set; and [find_by_value] then finds it.  When
    the flag sat on the recorded play-screen only, the new set is the only
    one flagged afterwards. *)
Theorem set_playscreen_creates sm (setno : Z) :
  reachable sm -> 0 <= setno < limit -> m_container sm !! setno = None ->
  exists sm',
    set_playscreen sm setno = Done (sm', true)
    /\ dom (m_container sm') = {[setno]} ∪ dom (m_container sm)
    /\ size (m_container sm') = S (size (m_container sm))
    /\ m_container sm' !! setno
       = Some (set_is_playscreen true
                 (screenset_new setno (m_rows sm) (m_columns sm)))
    /\ marked sm' setno = true
    /\ marked sm' (m_playscreen sm) = false
    /\ (forall k s, m_container sm !! k = Some s ->
        m_container sm' !! k
        = Some (if decide (k = m_playscreen sm) then set_is_playscreen false s else s))
    /\ m_playscreen sm' = setno
    /\ m_playscreen_pointer sm' = Some setno
    /\ find_by_value sm' setno = Some setno
    /\ (flag_follows_number sm -> forall k, marked sm' k = true -> k = setno).
Proof.
  intros Hr Hrange Hn.
  pose proof (reachable_consistent sm Hr) as Hc.
  pose proof (consistent_set_playscreen sm setno Hc) as [Hnum' _].
  destruct Hc as [Hnum [sp Hsp]].
  assert (setno <> m_playscreen sm) as Hne by congruence.
  rewrite set_playscreen_done. unfold set_playscreen_result in *.
  rewrite in_range_test in * by done.
  rewrite add_set_absent in * by done. simpl in *.
  eexists. split; [reflexivity|]. simpl.
  set (new := screenset_new setno (m_rows sm) (m_columns sm)) in *.
  assert (alter (set_is_playscreen true) setno
            (alter (set_is_playscreen false) (m_playscreen sm)
               (<[setno:=new]> (m_container sm))) !! setno
          = Some (set_is_playscreen true new)) as Hnew.
  { erewrite lookup_alter_Some;
      [|apply lookup_alter_Some, lookup_insert_eq].
    by rewrite decide_True, decide_False by done. }
  split; [|split; [|split; [done|]]].
  - rewrite !dom_alter_L. apply dom_insert_L.
  - rewrite <- !size_dom, !dom_alter_L, !size_dom. by apply map_size_insert_None.
  - split; [by unfold marked; simpl; rewrite Hnew|].
    split.
    { unfold marked. simpl.
      erewrite lookup_alter_Some;
        [|apply lookup_alter_Some; rewrite lookup_insert_ne by done; exact Hsp].
      by rewrite decide_False, decide_True by done. }
    split.
    { intros k s Hs. assert (setno <> k) by congruence.
      erewrite lookup_alter_Some;
        [|apply lookup_alter_Some; rewrite lookup_insert_ne by done; exact Hs].
      rewrite decide_False by done.
      destruct (decide (m_playscreen sm = k)) as [<-|?].
      - by rewrite decide_True.
      - by rewrite decide_False by congruence. }
    split; [done|]. split; [done|]. split.
    { eapply find_by_value_unique; simpl; [exact Hnum'|exact Hnew|reflexivity]. }
    intros Hf. eapply set_playscreen_single; [exact Hf|].
    rewrite set_playscreen_done. unfold set_playscreen_result.
    rewrite in_range_test, add_set_absent by done. reflexivity.
Qed.

End ReachableClaims.


(** C1.  After the constructor, [add_set(5)], [swap_sets(0, 5)] and
    [set_playscreen(0)], two stored sets are flagged as the play-screen: the
    swap carried the flag to key 5 while the stored play-screen number stayed
    0, so that [set_playscreen] unmarked the wrong set. *)
Theorem swap_sets_leaves_two_playscreens :
  exists sm : setmaster unit,
    (sm0 ← setmaster_ctor c_rows c_columns (-1);
     do_calls [AddSet 5; SwapSets 0 5; SetPlayscreen 0] sm0) = Done sm
    /\ marked sm 0 = true /\ marked sm 5 = true.
Proof. eexists. split; [vm_compute; reflexivity|]. by vm_compute. Qed.

(** C5.  After the constructor, [add_set(5)] and [swap_sets(0, 5)], the set
    under key 5 is the one flagged as play-screen, and 7 is in range and no
    key yet.  [set_playscreen(7)] returns [true], stores and flags a new set
    under key 7 and records 7 as the play-screen, but the set that was
    flagged before, under key 5, is still flagged afterwards: the call
    unmarked the set under the stored play-screen number 0 instead. *)
Theorem set_playscreen_leaves_swapped_flag :
  exists sm sm' : setmaster unit,
    (sm0 ← setmaster_ctor c_rows c_columns (-1);
     do_calls [AddSet 5; SwapSets 0 5] sm0) = Done sm
    /\ m_container sm !! 7 = None
    /\ marked sm 5 = true
    /\ set_playscreen sm 7 = Done (sm', true)
    /\ m_playscreen sm' = 7
    /\ marked sm' 7 = true
    /\ marked sm' 5 = true.
Proof.
  eexists. eexists. split; [vm_compute; reflexivity|].
  split; [by vm_compute|]. split; [by vm_compute|].
  split; [vm_compute; reflexivity|]. by vm_compute.
Qed.

(** ** The theorems at concrete managers *)

Module Examples.

Import Samples.


Lemma reachable_constructed : reachable (@constructed unit).
Proof. exists (-1), []. vm_compute. reflexivity. Defined.

Lemma reachable_three_sets : reachable three_sets.
Proof. exists (-1), [AddSet 1; AddSet 2]. vm_compute. reflexivity. Defined.




(** Own numbers come to be shared when a set-handler renumbers the sets it
    is given: after one pass of [renumber] over the manager with sets 0, 1
    and 2, the sets under keys 0 and 1 both report 7. *)
Lemma set_function_can_share_numbers :
  m_set_number <$>
    v_container (set_function not_dummy three_sets SwapSamples.renumber 0%nat) !! 0
  = Some 7
  /\ m_set_number <$>
       v_container (set_function not_dummy three_sets SwapSamples.renumber 0%nat) !! 1
     = Some 7
  /\ m_set_number <$>
       v_container (set_function not_dummy three_sets SwapSamples.renumber 0%nat) !! 2
     = Some 8.
Proof. by vm_compute. Qed.

Lemma swap_sets_all_or_nothing_witness :
  (~ occurs 0 (@constructed unit) \/ ~ occurs 7 (@constructed unit))
  /\ swap_sets (@constructed unit) 0 7 = (constructed, false).
Proof.
  assert (~ occurs 0 (@constructed unit) \/ ~ occurs 7 (@constructed unit)) as Hno.
  { right. apply find_by_value_None. vm_compute. reflexivity. }
  split; [exact Hno|].
  exact (swap_sets_all_or_nothing constructed 0 7 Hno).
Defined.

Lemma set_playscreen_creates_witness :
  reachable (@constructed unit) /\ 0 <= 5 < limit
  /\ m_container (@constructed unit) !! 5 = None
  /\ exists sm' : setmaster unit,
       set_playscreen constructed 5 = Done (sm', true)
       /\ marked sm' 5 = true /\ marked sm' 0 = false
       /\ m_playscreen sm' = 5 /\ find_by_value sm' 5 = Some 5.
Proof.
  assert (0 <= 5 < limit) as Hr by (unfold limit; lia).
  assert (m_container (@constructed unit) !! 5 = None) as Hn
    by (vm_compute; reflexivity).
  split; [exact reachable_constructed|]. split; [exact Hr|]. split; [exact Hn|].
  destruct (set_playscreen_creates (@constructed unit) 5 reachable_constructed Hr Hn)
    as (sm' & Hd & _ & _ & _ & Hm & Hu & _ & Hp & _ & Hf & _).
  exists sm'. repeat split; assumption.
Defined.

Lemma set_playscreen_out_of_range_witness :
  (limit < 0 \/ limit <= limit)
  /\ set_playscreen (@constructed unit) limit = Done (constructed, false).
Proof.
  assert (limit < 0 \/ limit <= limit) as Hout by (right; lia).
  split; [exact Hout|].
  exact (set_playscreen_out_of_range constructed limit Hout).
Defined.

Lemma set_function_stops_at_failure_witness :
  Z.of_nat (length (usable_sets not_dummy three_sets)) <= int_max
  /\ (1 <= 2 <= length (usable_sets not_dummy three_sets))%nat
  /\ fails_on_call fail_second (usable_sets not_dummy three_sets) 0 0%nat 2 = true
  /\ v_result (set_function not_dummy three_sets fail_second 0%nat) = false
  /\ v_calls (set_function not_dummy three_sets fail_second 0%nat)
     = [(0, 0); (1, 1)].
Proof.
  assert (Z.of_nat (length (usable_sets not_dummy three_sets)) <= int_max) as Hfit
    by (vm_compute; discriminate).
  assert (1 <= 2 <= length (usable_sets not_dummy three_sets))%nat as Hk
    by (vm_compute; lia).
  assert (fails_on_call fail_second (usable_sets not_dummy three_sets) 0 0%nat 2
          = true) as Hf by (vm_compute; reflexivity).
  split; [exact Hfit|]. split; [exact Hk|]. split; [exact Hf|].
  destruct (set_function_stops_at_failure not_dummy three_sets fail_second
              0%nat 2 Hfit Hk Hf) as (Hr & Hc & _).
  split; [exact Hr|]. rewrite Hc. vm_compute. reflexivity.
Defined.

Lemma calculate_set_column_major_witness :
  m_rows (@constructed unit) * m_columns (@constructed unit) <= int_max
  /\ calculate_set (@constructed unit) 3 7 = 4 * 7 + 3
  /\ calculate_set (@constructed unit) 4 7 = 0.
Proof.
  assert (m_rows (@constructed unit) * m_columns (@constructed unit) <= int_max)
    as Hfit by (vm_compute; discriminate).
  split; [exact Hfit|].
  destruct (calculate_set_column_major (@constructed unit) Hfit) as (Hv & _ & Ho).
  split.
  - apply (Hv 3 7); simpl; unfold c_rows, c_columns; lia.
  - apply (Ho 4 7). simpl. unfold c_rows. lia.
Defined.

Lemma set_function_without_usable_sets_witness :
  (forall k e, m_container dummy_only !! k = Some e -> not_dummy e = false)
  /\ set_function not_dummy dummy_only fail_second 0%nat
     = mk_visit false (m_container dummy_only) 0%nat []
  /\ set_function_sets_slots not_dummy (fun s (_ : unit) => fun h e => s h e 0)
       dummy_only fail_second tt 0%nat
     = mk_visit false (m_container dummy_only) 0%nat []
  /\ set_function_slots not_dummy (fun (_ : unit) (h : nat) e => (S h, e, true))
       dummy_only tt 0%nat
     = mk_visit false (m_container dummy_only) 0%nat [].
Proof.
  assert (forall k e, m_container dummy_only !! k = Some e -> not_dummy e = false)
    as Hno.
  { intros k e He. simpl in He.
    apply lookup_singleton_Some in He as [_ <-]. reflexivity. }
  split; [exact Hno|].
  exact (set_function_without_usable_sets not_dummy _ _ dummy_only fail_second tt
           0%nat Hno).
Defined.

(** The scenario of the specification: after [add_set(5)] and
    [set_playscreen(5)], the set found for 5 is flagged and the one found for
    0 is not. *)
Example scenario_activate :
  exists sm : setmaster unit,
    do_calls [AddSet 5; SetPlayscreen 5] constructed = Done sm
    /\ find_by_value sm 5 = Some 5 /\ marked sm 5 = true
    /\ find_by_value sm 0 = Some 0 /\ marked sm 0 = false.
Proof. eexists. split; [vm_compute; reflexivity|]. by vm_compute. Qed.

(** The scenario of the specification: after [swap_sets(1, 2)] the set stored
    under key 1 reports 2 and conversely, and [screenset_index] counts in key
    order. *)
Example scenario_swap :
  let sm := (swap_sets three_sets 1 2).1 in
  m_set_number <$> m_container sm !! 1 = Some 2
  /\ m_set_number <$> m_container sm !! 2 = Some 1
  /\ screenset_index (-1) sm 2 = 1
  /\ screenset_index (-1) sm 1 = 2.
Proof. by vm_compute. Qed.

End Examples.

(** * Further properties of the manager *)

(** ** The iteration order, continued *)

Section BindingsMore.

Context {pattern : Type}.
Implicit Types (m : gmap Z (screenset pattern)) (s : screenset pattern)
  (sm : setmaster pattern) (l : list (Z * screenset pattern)).

Lemma length_bindings m : length (bindings m) = size m.
Proof. rewrite bindings_perm. apply length_map_to_list. Qed.

(** The bindings are the only key-sorted enumeration of the map. *)
Lemma bindings_unique l m :
  StronglySorted key_le l -> l ≡ₚ map_to_list m -> l = bindings m.
Proof.
  intros Hs Hp. apply (StronglySorted_unique_strong key_le); [|done|..].
  - intros [k1 s1] [k2 s2] H1 H2 Hle Hge. unfold key_le in *. simpl in *.
    assert (k1 = k2) as -> by lia. f_equal.
    rewrite Hp in H1. apply elem_of_map_to_list in H1.
    apply elem_of_bindings in H2. congruence.
  - apply bindings_sorted.
  - by rewrite bindings_perm.
Qed.

(** A key-wise change of the stored sets shows in place in the bindings. *)
Lemma bindings_keywise (g : Z -> screenset pattern -> screenset pattern) m m' :
  (forall k, m' !! k = g k <$> m !! k) ->
  bindings m' = (fun p => (p.1, g p.1 p.2)) <$> bindings m.
Proof.
  intros Hg. symmetry. apply bindings_unique.
  - apply (StronglySorted_fmap _ key_le key_le); [|apply bindings_sorted].
    intros [k1 s1] [k2 s2]. by unfold key_le.
  - apply NoDup_Permutation.
    + apply (NoDup_fmap_1 fst). rewrite <- list_fmap_compose.
      apply (bindings_keys_NoDup m).
    + apply NoDup_map_to_list.
    + intros [k s]. rewrite elem_of_map_to_list, Hg, list_elem_of_fmap. split.
      * intros ([k1 s1] & [= -> ->] & H1). simpl.
        apply elem_of_bindings in H1. by rewrite H1.
      * intros Hs. destruct (m !! k) as [s1|] eqn:H1; [|done].
        injection Hs as <-. exists (k, s1). split; [done|].
        by apply elem_of_bindings.
Qed.

Lemma StronglySorted_lookup_lt {A} (R : relation A) (l : list A) (i j : nat) x y :
  StronglySorted R l -> l !! i = Some x -> l !! j = Some y -> (i < j)%nat -> R x y.
Proof.
  intros Hs. revert i j. induction Hs as [|z l Hs IH Hall]; intros i j Hi Hj Hlt.
  - done.
  - destruct j as [|j]; [lia|]. destruct i as [|i].
    + injection Hi as ->. rewrite Forall_forall in Hall. apply Hall.
      by eapply list_elem_of_lookup_2.
    + apply (IH i j); [done..|lia].
Qed.

Lemma bindings_lookup_key_lt m (i j : nat) k1 s1 k2 s2 :
  bindings m !! i = Some (k1, s1) -> bindings m !! j = Some (k2, s2) ->
  (i < j)%nat -> k1 < k2.
Proof.
  intros Hi Hj Hlt.
  apply (StronglySorted_lookup_lt Z.lt (bindings m).*1 i j);
    [apply bindings_ascending| | |done].
  - by rewrite list_lookup_fmap, Hi.
  - by rewrite list_lookup_fmap, Hj.
Qed.

(** The two lookups by value as searches for the first match. *)
Lemma find_by_value_loop_find l (setno : Z) :
  find_by_value_loop l setno
  = (fun jp => jp.2.1) <$> list_find (fun p => m_set_number p.2 = setno) l.
Proof.
  induction l as [|[k s] l IH]; simpl; [done|].
  destruct (Z.eqb_spec (m_set_number s) setno) as [He|He].
  - by rewrite decide_True.
  - rewrite decide_False by done. rewrite IH.
    by destruct (list_find _ l) as [[j p]|].
Qed.

Lemma screenset_index_loop_find l (setno index result : Z) :
  0 <= index -> index + Z.of_nat (length l) <= int_max + 1 ->
  screenset_index_loop l setno index result
  = match list_find (fun p => m_set_number p.2 = setno) l with
    | Some (j, _) => index + Z.of_nat j
    | None => result
    end.
Proof.
  revert index. induction l as [|[k s] l IH]; intros index Hi Hfit; simpl; [done|].
  destruct (Z.eqb_spec (m_set_number s) setno) as [He|He].
  - rewrite decide_True by done. simpl. lia.
  - rewrite decide_False by done. simpl length in Hfit.
    destruct l as [|p0 l0]; [done|]. simpl length in *.
    rewrite int_wrap_small by (unfold int_min, int_max in *; lia).
    rewrite IH by (simpl length; lia).
    destruct (list_find _ (p0 :: l0)) as [[j p]|]; simpl; [lia|done].
Qed.

End BindingsMore.

(** ** Lookup by value and by position *)

Section LookupMore.

Context {pattern : Type}.
Implicit Types (m : gmap Z (screenset pattern)) (s : screenset pattern)
  (sm : setmaster pattern) (l : list (Z * screenset pattern)).

Lemma occurs_list_find sm (setno : Z) :
  occurs setno sm <->
  is_Some (list_find (fun p => m_set_number p.2 = setno) (bindings (m_container sm))).
Proof.
  split.
  - intros (k & s & Hk & Hs).
    apply (list_find_elem_of _ _ (k, s)); [by apply elem_of_bindings|done].
  - intros [[j [k s]] Hf]. apply list_find_Some in Hf as (Hj & Hs & _).
    exists k, s. split; [|done].
    apply elem_of_bindings. by eapply list_elem_of_lookup_2.
Qed.

(** X1.  [screenset_index] answers [unassigned] exactly for a number no
    stored set has; otherwise it answers the position, in ascending key
    order, of the first set with that own number, which is the set
    [find_by_value] designates. *)
Theorem screenset_index_first_match (unassigned : Z) sm (setno : Z) :
  Z.of_nat (size (m_container sm)) <= int_max ->
  (~ occurs setno sm -> screenset_index unassigned sm setno = unassigned)
  /\ (occurs setno sm ->
      exists (i : nat) k s,
        screenset_index unassigned sm setno = Z.of_nat i
        /\ bindings (m_container sm) !! i = Some (k, s)
        /\ m_set_number s = setno
        /\ (forall j k' s', (j < i)%nat ->
              bindings (m_container sm) !! j = Some (k', s') ->
              m_set_number s' <> setno)
        /\ find_by_value sm setno = Some k).
Proof.
  intros Hfit. unfold screenset_index, find_by_value.
  rewrite screenset_index_loop_find, find_by_value_loop_find
    by (rewrite ?length_bindings; lia).
  split.
  - intros Hno. rewrite occurs_list_find in Hno.
    destruct (list_find _ _) as [[j p]|]; [|done].
    exfalso. apply Hno. eauto.
  - intros Hocc. apply occurs_list_find in Hocc as [[i [k s]] Hf].
    rewrite Hf. exists i, k, s.
    apply list_find_Some in Hf as (Hi & Hs & Hbefore).
    split; [lia|]. split; [done|]. split; [done|]. split; [|done].
    intros j k' s' Hlt Hj He. by apply (Hbefore j (k', s')).
Qed.

(** X2.  [find_by_value] designates a set with the number asked for, and of
    all the sets with that own number the one with the least key. *)
Theorem find_by_value_least_key sm (setno k : Z) :
  find_by_value sm setno = Some k ->
  (exists s, m_container sm !! k = Some s /\ m_set_number s = setno)
  /\ (forall k' s', m_container sm !! k' = Some s' ->
        m_set_number s' = setno -> k <= k').
Proof.
  unfold find_by_value. rewrite find_by_value_loop_find.
  destruct (list_find _ _) as [[j [k0 s0]]|] eqn:Hf; [|done].
  simpl. intros [= ->].
  apply list_find_Some in Hf as (Hj & Hs & Hbefore). simpl in Hs.
  split.
  - exists s0. split; [|done]. apply elem_of_bindings.
    by eapply list_elem_of_lookup_2.
  - intros k' s' Hk' Hs'.
    apply elem_of_bindings, list_elem_of_lookup in Hk' as [i Hi].
    destruct (lt_eq_lt_dec i j) as [[Hlt| ->]|Hgt].
    + exfalso. by apply (Hbefore i (k', s')).
    + rewrite Hj in Hi. injection Hi as -> _. lia.
    + pose proof (bindings_lookup_key_lt _ j i _ _ _ _ Hj Hi Hgt). lia.
Qed.

End LookupMore.

(** ** The mutators in every state *)

Section MutatorsMore.

Context {pattern : Type}.
Implicit Types (m : gmap Z (screenset pattern)) (s : screenset pattern)
  (sm : setmaster pattern).

(** X3.  For a number in range that is a key already, [set_playscreen]
    creates nothing: it returns [true], flags the set under that key, unflags
    the set under the play-screen number stored before, leaves every other
    set alone, and records the key as play-screen number and pointer. *)
Theorem set_playscreen_existing sm (setno : Z) s :
  0 <= setno < limit -> m_container sm !! setno = Some s ->
  exists sm',
    set_playscreen sm setno = Done (sm', true)
    /\ dom (m_container sm') = dom (m_container sm)
    /\ m_container sm' !! setno = Some (set_is_playscreen true s)
    /\ (forall k s', k <> setno -> m_container sm !! k = Some s' ->
        m_container sm' !! k
        = Some (if decide (k = m_playscreen sm) then set_is_playscreen false s'
                else s'))
    /\ m_playscreen sm' = setno
    /\ m_playscreen_pointer sm' = Some setno.
Proof.
  intros Hr Hs. exists (activate sm setno).
  split; [apply set_playscreen_rec_present; eauto|].
  unfold activate. simpl. split; [by rewrite !dom_alter_L|]. split.
  - erewrite lookup_alter_Some; [|by apply lookup_alter_Some].
    rewrite decide_True by done. by case_decide.
  - split; [|done]. intros k s' Hne Hk.
    erewrite lookup_alter_Some; [|by apply lookup_alter_Some].
    rewrite decide_False by done.
    destruct (decide (m_playscreen sm = k)) as [<-|?].
    + by rewrite decide_True.
    + by rewrite decide_False by congruence.
Qed.

(** X4.  [set_playscreen] always returns: [at] never throws and one nested
    call is the deepest it goes.  It returns [true] exactly for a number in
    [0, limit); when it returns [false] the manager is untouched, so the
    fall-back to play-screen 0 is never taken. *)
Theorem set_playscreen_returns sm (setno : Z) (fuel : nat) :
  exists sm' (result : bool),
    set_playscreen_rec (S (S fuel)) sm setno = Done (sm', result)
    /\ set_playscreen sm setno = Done (sm', result)
    /\ (result = true <-> 0 <= setno < limit)
    /\ (result = false -> sm' = sm)
    /\ (result = true ->
        m_playscreen sm' = setno /\ m_playscreen_pointer sm' = Some setno
        /\ marked sm' setno = true).
Proof.
  exists (set_playscreen_result sm setno).1, (set_playscreen_result sm setno).2.
  rewrite <- surjective_pairing.
  split; [apply set_playscreen_rec_enough|].
  split; [apply set_playscreen_done|].
  unfold set_playscreen_result.
  destruct ((setno >=? 0) && (setno <? limit)) eqn:Hr; cbn -[add_set].
  - apply andb_true_iff in Hr as [? ?].
    split; [split; [lia|done]|]. split; [done|]. intros _.
    split; [done|]. split; [done|].
    unfold marked. cbn -[add_set].
    destruct (add_set_stores sm setno) as [s Hs].
    erewrite lookup_alter_Some; [|by apply lookup_alter_Some].
    by rewrite decide_True.
  - apply andb_false_iff in Hr.
    split; [split; [done|lia]|]. split; [done|]. done.
Qed.

Lemma activate_again sm (setno : Z) :
  is_Some (m_container sm !! setno) ->
  activate (activate sm setno) setno = activate sm setno.
Proof.
  intros [s Hs]. unfold activate. simpl. f_equal.
  apply map_eq. intros j.
  set (c := alter (set_is_playscreen true) setno
              (alter (set_is_playscreen false) (m_playscreen sm) (m_container sm))).
  destruct (c !! j) as [x|] eqn:Hj.
  - erewrite lookup_alter_Some; [|by apply lookup_alter_Some].
    f_equal. case_decide; [subst j|done].
    unfold c in Hj. apply lookup_alter_inv in Hj as (y & _ & ->).
    by rewrite decide_True.
  - by apply lookup_alter_None, lookup_alter_None.
Qed.

(** X5.  Calling [set_playscreen] a second time with the same number changes
    nothing and returns what the first call returned. *)
Theorem set_playscreen_idempotent sm (setno : Z) :
  ('(sm1, _) ← set_playscreen sm setno; set_playscreen sm1 setno)
  = set_playscreen sm setno.
Proof.
  rewrite set_playscreen_done. unfold set_playscreen_result.
  destruct ((setno >=? 0) && (setno <? limit)) eqn:Hr; cbn -[add_set set_playscreen].
  - rewrite set_playscreen_done. unfold set_playscreen_result. rewrite Hr.
    destruct (add_set_stores sm setno) as [s Hs].
    rewrite add_set_present.
    + cbn [fst]. rewrite activate_again by eauto. done.
    + cbn -[add_set]. erewrite lookup_alter_Some; [eauto|].
      by apply lookup_alter_Some.
  - rewrite set_playscreen_done. unfold set_playscreen_result. by rewrite Hr.
Qed.

(** X6.  [add_set] twice with the same number is [add_set] once, and two
    [add_set] calls give the same manager in either order. *)
Theorem add_set_compose sm (a b : Z) :
  add_set (add_set sm a).1 a = ((add_set sm a).1, Some a)
  /\ (add_set (add_set sm a).1 b).1 = (add_set (add_set sm b).1 a).1.
Proof.
  split; [apply add_set_present, add_set_stores|].
  destruct (decide (a = b)) as [->|Hne]; [done|].
  destruct (m_container sm !! a) as [sa|] eqn:Ha;
    destruct (m_container sm !! b) as [sb|] eqn:Hb.
  - rewrite (add_set_present sm a), (add_set_present sm b) by eauto. cbn [fst].
    by rewrite (add_set_present sm a), (add_set_present sm b) by eauto.
  - rewrite (add_set_present sm a) by eauto. cbn [fst].
    rewrite (add_set_absent sm b) by done. cbn [fst].
    rewrite add_set_present; [done|]. simpl. rewrite lookup_insert_ne by done. eauto.
  - rewrite (add_set_present sm b) by eauto. cbn [fst].
    rewrite (add_set_absent sm a) by done. cbn [fst].
    rewrite add_set_present; [done|]. simpl. rewrite lookup_insert_ne by done. eauto.
  - rewrite (add_set_absent sm a), (add_set_absent sm b) by done. cbn [fst].
    rewrite !add_set_absent by (simpl; by rewrite lookup_insert_ne).
    unfold with_container. simpl. f_equal. by apply insert_insert_ne.
Qed.

(** X7.  [reset] discards every stored set: what it leaves are exactly the
    keys 0 and [limit], each with a new, empty set of the manager's geometry
    whose own number is its key; the geometry is kept, and a second [reset]
    changes nothing. *)
Theorem reset_discards sm :
  exists sm',
    reset sm = Done sm'
    /\ dom (m_container sm') = {[0; limit]}
    /\ (forall k s, m_container sm' !! k = Some s ->
        m_set_number s = k /\ s_rows s = m_rows sm /\ s_columns s = m_columns sm
        /\ Forall (fun slot => slot = None) (m_slots s))
    /\ m_rows sm' = m_rows sm /\ m_columns sm' = m_columns sm
    /\ reset sm' = Done sm'.
Proof.
  exists (after_reset sm). split; [apply reset_done|].
  split; [|split; [|split; [done|split; [done|]]]].
  - simpl. rewrite dom_insert_L, dom_singleton_L. set_solver.
  - simpl. intros k s Hk.
    apply lookup_insert_Some in Hk as [[<- <-]|[_ Hk]].
    + simpl. repeat split. apply Forall_replicate. done.
    + apply lookup_singleton_Some in Hk as [<- <-].
      simpl. repeat split. apply Forall_replicate. done.
  - by rewrite reset_done.
Qed.

Lemma calculate_set_on_grid sm (row column : Z) :
  m_rows sm * m_columns sm <= int_max ->
  0 <= row < m_rows sm -> 0 <= column < m_columns sm ->
  calculate_set sm row column = m_rows sm * column + row.
Proof.
  intros Hfit Hr Hc. unfold calculate_set.
  replace ((row <? 0) || (row >=? m_rows sm) || (column <? 0)
           || (column >=? m_columns sm)) with false
    by (symmetry; rewrite !orb_false_iff; lia).
  assert (0 <= m_rows sm * column) by nia.
  assert (m_rows sm * column + row < m_rows sm * m_columns sm) by nia.
  unfold int_max in Hfit.
  rewrite (int_wrap_small (m_rows sm * column)) by (unfold int_min, int_max; lia).
  apply int_wrap_small. unfold int_min, int_max. lia.
Qed.

(** X8.  On the grid, [calculate_set] numbers the cells 0 to
    [m_rows * m_columns - 1]: the row is the number modulo [m_rows], the
    column the quotient, and every number in that range is the number of the
    cell so obtained. *)
Theorem calculate_set_decode sm :
  m_rows sm * m_columns sm <= int_max ->
  (forall row column,
     0 <= row < m_rows sm -> 0 <= column < m_columns sm ->
     0 <= calculate_set sm row column < m_rows sm * m_columns sm
     /\ calculate_set sm row column mod m_rows sm = row
     /\ calculate_set sm row column / m_rows sm = column)
  /\ (forall n, 0 < m_rows sm -> 0 <= n < m_rows sm * m_columns sm ->
      calculate_set sm (n mod m_rows sm) (n / m_rows sm) = n).
Proof.
  intros Hfit. split.
  - intros row column Hr Hc. rewrite calculate_set_on_grid by done.
    split; [nia|]. split.
    + rewrite Z.add_comm, Z.mul_comm, Z_mod_plus_full. apply Z.mod_small. lia.
    + rewrite Z.add_comm, Z.mul_comm, Z_div_plus_full by lia.
      rewrite Z.div_small by lia. lia.
  - intros n Hrows Hn.
    assert (0 <= n mod m_rows sm < m_rows sm) by (apply Z.mod_pos_bound; lia).
    assert (0 <= n / m_rows sm < m_columns sm).
    { split; [apply Z.div_pos; lia|]. apply Z.div_lt_upper_bound; lia. }
    rewrite calculate_set_on_grid by done.
    pose proof (Z.div_mod n (m_rows sm)). lia.
Qed.

End MutatorsMore.

(** ** Swapping in every state *)

Section SwapMore.

Context {pattern : Type}.
Implicit Types (m : gmap Z (screenset pattern)) (s : screenset pattern)
  (sm : setmaster pattern).

(** What a successful [swap_sets] stores, in terms of the two sets found. *)
Lemma swap_sets_located sm (set0 set1 k0 k1 : Z) :
  find_by_value sm set0 = Some k0 -> find_by_value sm set1 = Some k1 ->
  exists s0 s1,
    m_container sm !! k0 = Some s0 /\ m_set_number s0 = set0
    /\ m_container sm !! k1 = Some s1 /\ m_set_number s1 = set1
    /\ swap_sets sm set0 set1
       = (with_container (<[k1 := s0]> (<[k0 := s1]> (m_container sm))) sm, true).
Proof.
  intros H0 H1.
  destruct (find_by_value_Some sm set0 k0 H0) as (s0 & Hs0 & He0).
  destruct (find_by_value_Some sm set1 k1 H1) as (s1 & Hs1 & He1).
  exists s0, s1. repeat (split; [done|]).
  unfold swap_sets. rewrite H0, H1. subst set0 set1.
  by rewrite swap_contents_found.
Qed.

(** X9.  [swap_sets] succeeds exactly when both numbers are own numbers of
    stored sets.  It then exchanges the two sets it found, whole: each is
    stored under the other's key with its own number, flag and slots, so the
    play-screen flag moves with the set, while the keys, every other set, and
    the play-screen number and pointer stay as they are. *)
Theorem swap_sets_exchanges sm (set0 set1 : Z) :
  ((swap_sets sm set0 set1).2 = true <-> occurs set0 sm /\ occurs set1 sm)
  /\ (forall k0 k1 s0 s1,
        find_by_value sm set0 = Some k0 -> find_by_value sm set1 = Some k1 ->
        m_container sm !! k0 = Some s0 -> m_container sm !! k1 = Some s1 ->
        dom (m_container (swap_sets sm set0 set1).1) = dom (m_container sm)
        /\ m_container (swap_sets sm set0 set1).1 !! k1 = Some s0
        /\ m_container (swap_sets sm set0 set1).1 !! k0 = Some s1
        /\ (forall k, k <> k0 -> k <> k1 ->
            m_container (swap_sets sm set0 set1).1 !! k = m_container sm !! k)
        /\ marked (swap_sets sm set0 set1).1 k1 = marked sm k0
        /\ marked (swap_sets sm set0 set1).1 k0 = marked sm k1
        /\ m_playscreen (swap_sets sm set0 set1).1 = m_playscreen sm
        /\ m_playscreen_pointer (swap_sets sm set0 set1).1 = m_playscreen_pointer sm).
Proof.
  split.
  - destruct (find_by_value sm set0) as [k0|] eqn:H0.
    + destruct (find_by_value sm set1) as [k1|] eqn:H1.
      * destruct (swap_sets_located sm set0 set1 k0 k1 H0 H1)
          as (s0 & s1 & Hs0 & He0 & Hs1 & He1 & ->).
        simpl. split; [|done]. intros _.
        split; [by exists k0, s0|by exists k1, s1].
      * rewrite swap_sets_not_found by auto. simpl. split; [done|].
        intros [_ Hocc]. by apply find_by_value_None in H1.
    + rewrite swap_sets_not_found by auto. simpl. split; [done|].
      intros [Hocc _]. by apply find_by_value_None in H0.
  - intros k0 k1 s0 s1 H0 H1 Hs0 Hs1.
    destruct (swap_sets_located sm set0 set1 k0 k1 H0 H1)
      as (t0 & t1 & Ht0 & _ & Ht1 & _ & ->).
    assert (t0 = s0) as -> by congruence. assert (t1 = s1) as -> by congruence.
    simpl.
    assert (<[k1:=s0]> (<[k0:=s1]> (m_container sm)) !! k0 = Some s1) as Hk0.
    { destruct (decide (k1 = k0)) as [->|Hne].
      - rewrite lookup_insert_eq. congruence.
      - rewrite lookup_insert_ne by done. apply lookup_insert_eq. }
    split.
    { rewrite !dom_insert_L.
      pose proof (elem_of_dom_2 (m_container sm) k0 s0 Hs0).
      pose proof (elem_of_dom_2 (m_container sm) k1 s1 Hs1).
      apply set_eq. intros x. rewrite !elem_of_union, !elem_of_singleton.
      split; [intros [->|[->|?]]; done|auto]. }
    split; [apply lookup_insert_eq|]. split; [exact Hk0|]. split.
    { intros k Hn0 Hn1. by rewrite !lookup_insert_ne. }
    unfold marked. simpl. rewrite lookup_insert_eq, Hk0, Hs0, Hs1. done.
Qed.

(** X10.  The order of the two arguments of [swap_sets] does not matter, and
    swapping a number that occurs with itself changes nothing. *)
Theorem swap_sets_symmetric sm (set0 set1 : Z) :
  swap_sets sm set0 set1 = swap_sets sm set1 set0
  /\ (occurs set0 sm -> swap_sets sm set0 set0 = (sm, true)).
Proof.
  split.
  - destruct (find_by_value sm set0) as [k0|] eqn:H0;
      [|by rewrite !swap_sets_not_found by auto].
    destruct (find_by_value sm set1) as [k1|] eqn:H1;
      [|by rewrite !swap_sets_not_found by auto].
    destruct (swap_sets_located sm set0 set1 k0 k1 H0 H1)
      as (s0 & s1 & Hs0 & _ & Hs1 & _ & ->).
    destruct (swap_sets_located sm set1 set0 k1 k0 H1 H0)
      as (t1 & t0 & Ht1 & _ & Ht0 & _ & ->).
    assert (t0 = s0) as -> by congruence. assert (t1 = s1) as -> by congruence.
    f_equal. f_equal.
    destruct (decide (k0 = k1)) as [->|Hne].
    + by assert (s0 = s1) as -> by congruence.
    + by apply insert_insert_ne.
  - intros Hocc.
    destruct (find_by_value sm set0) as [k0|] eqn:H0;
      [|by apply find_by_value_None in H0].
    destruct (swap_sets_located sm set0 set0 k0 k0 H0 H0)
      as (s0 & s1 & Hs0 & _ & Hs1 & _ & ->).
    assert (s1 = s0) as -> by congruence.
    f_equal. destruct sm as [r c n m p q]. unfold with_container. simpl in *.
    f_equal. rewrite insert_insert_eq. by apply insert_id.
Qed.

End SwapMore.

(** ** Invariants of the reachable states *)

Section ReachableMore.

Context {pattern : Type}.
Implicit Types (m : gmap Z (screenset pattern)) (s : screenset pattern)
  (sm : setmaster pattern).

Lemma standing_add_set sm (setno : Z) :
  standing sm -> standing (add_set sm setno).1.
Proof.
  intros Hst.
  destruct (m_container sm !! setno) eqn:Hk.
  { by rewrite add_set_present by eauto. }
  destruct Hst as (H0 & Hl & Hr & Hp & Hq & Hrows & Hcols & Hgeo).
  rewrite add_set_absent by done. unfold standing. simpl.
  assert (forall k, is_Some (m_container sm !! k) ->
            is_Some (<[setno:=screenset_new setno (m_rows sm) (m_columns sm)]>
                       (m_container sm) !! k)) as Hmono.
  { intros k Hk'. destruct (decide (setno = k)) as [<-|?].
    - rewrite lookup_insert_eq. eauto.
    - by rewrite lookup_insert_ne. }
  repeat (split; [by auto|]).
  intros k s Hs. apply lookup_insert_Some in Hs as [[_ <-]|[_ Hs]]; [done|].
  by apply (Hgeo k).
Qed.

Lemma standing_set_playscreen sm (setno : Z) :
  standing sm -> standing (set_playscreen_result sm setno).1.
Proof.
  intros Hst. unfold set_playscreen_result.
  destruct ((setno >=? 0) && (setno <? limit)) eqn:Hr; [|done].
  apply andb_true_iff in Hr as [Hge Hlt].
  apply (standing_add_set sm setno) in Hst.
  destruct Hst as (Hz & Hl & _ & _ & _ & Hrows & Hcols & Hgeo).
  destruct (add_set_stores sm setno) as [s Hs].
  unfold standing. cbn -[add_set].
  assert (forall k, is_Some (m_container (add_set sm setno).1 !! k) ->
            is_Some (alter (set_is_playscreen true) setno
                       (alter (set_is_playscreen false)
                          (m_playscreen (add_set sm setno).1)
                          (m_container (add_set sm setno).1)) !! k)) as Hmono.
  { intros k [x Hx]. erewrite lookup_alter_Some; [eauto|].
    by apply lookup_alter_Some. }
  split; [by auto|]. split; [by auto|]. split; [lia|].
  split; [apply Hmono; eauto|]. split; [done|]. split; [done|]. split; [done|].
  intros k x Hx.
  apply lookup_alter_inv in Hx as (y & Hy & ->).
  apply lookup_alter_inv in Hy as (z & Hkz & ->).
  destruct (Hgeo k z Hkz). by repeat case_decide.
Qed.

Lemma standing_swap_sets sm (set0 set1 : Z) :
  standing sm -> standing (swap_sets sm set0 set1).1.
Proof.
  intros Hst.
  destruct (find_by_value sm set0) as [k0|] eqn:H0;
    [|by rewrite swap_sets_not_found by auto].
  destruct (find_by_value sm set1) as [k1|] eqn:H1;
    [|by rewrite swap_sets_not_found by auto].
  destruct (swap_sets_located sm set0 set1 k0 k1 H0 H1)
    as (s0 & s1 & Hs0 & _ & Hs1 & _ & ->).
  destruct Hst as (Hz & Hl & Hr & Hp & Hq & Hrows & Hcols & Hgeo).
  unfold standing. simpl.
  assert (forall k, is_Some (m_container sm !! k) ->
            is_Some (<[k1:=s0]> (<[k0:=s1]> (m_container sm)) !! k)) as Hmono.
  { intros k Hk. destruct (decide (k1 = k)) as [<-|?].
    - rewrite lookup_insert_eq. eauto.
    - rewrite lookup_insert_ne by done. destruct (decide (k0 = k)) as [<-|?].
      + rewrite lookup_insert_eq. eauto.
      + by rewrite lookup_insert_ne. }
  repeat (split; [by auto|]).
  intros k s Hs.
  apply lookup_insert_Some in Hs as [[_ <-]|[_ Hs]]; [by apply (Hgeo k0)|].
  apply lookup_insert_Some in Hs as [[_ <-]|[_ Hs]]; [by apply (Hgeo k1)|].
  by apply (Hgeo k).
Qed.

Lemma standing_after_reset sm :
  m_rows sm = c_rows -> m_columns sm = c_columns -> standing (after_reset sm).
Proof.
  intros Hrows Hcols. unfold standing. simpl.
  split; [rewrite lookup_insert_ne by done; rewrite lookup_singleton_eq; eauto|].
  split; [rewrite lookup_insert_eq; eauto|].
  split; [unfold limit; lia|].
  split; [rewrite lookup_insert_ne by done; rewrite lookup_singleton_eq; eauto|].
  repeat (split; [done|]).
  intros k s Hs.
  apply lookup_insert_Some in Hs as [[_ <-]|[_ Hs]]; [done|].
  by apply lookup_singleton_Some in Hs as [_ <-].
Qed.

Lemma standing_do_call (c : call) sm sm' :
  standing sm -> do_call c sm = Done sm' -> standing sm'.
Proof.
  intros Hst. destruct c; cbn -[add_set set_playscreen reset swap_sets].
  - intros Hd. assert (sm' = (add_set sm setno).1) as -> by congruence.
    by apply standing_add_set.
  - rewrite set_playscreen_done.
    pose proof (standing_set_playscreen sm setno Hst) as Hst'.
    destruct (set_playscreen_result sm setno). simpl. by intros [= <-].
  - intros Hd. assert (sm' = (swap_sets sm set0 set1).1) as -> by congruence.
    by apply standing_swap_sets.
  - rewrite reset_done. intros [= <-].
    destruct Hst as (_ & _ & _ & _ & _ & Hrows & Hcols & _).
    by apply standing_after_reset.
Qed.

Lemma standing_do_calls (cs : list call) : forall sm sm',
  standing sm -> do_calls cs sm = Done sm' -> standing sm'.
Proof.
  induction cs as [|c cs IH]; intros sm sm' Hst; simpl.
  - by intros [= <-].
  - destruct (do_call_done c sm) as [sm1 H1]. rewrite H1. simpl.
    apply IH. by eapply standing_do_call.
Qed.

(** X11.  In every state a manager can reach, set 0 and the dummy set are
    stored, the play-screen number lies in [0, limit) and is a key, the
    pointer designates the set under that key, and the manager and all its
    sets have the 4 by 8 geometry. *)
Theorem reachable_standing sm : reachable sm -> standing sm.
Proof.
  intros (u & cs & Hr). rewrite setmaster_ctor_done in Hr. simpl in Hr.
  eapply standing_do_calls; [|done].
  by apply (standing_after_reset
              {| m_rows := c_rows; m_columns := c_columns;
                 m_set_count := int_wrap (c_rows * c_columns);
                 m_container := ∅; m_playscreen := 0;
                 m_playscreen_pointer := None |}).
Qed.

Lemma keys_numbered_insert_new m (setno rows columns : Z) :
  keys_numbered m -> m !! setno = None ->
  keys_numbered (<[setno := screenset_new setno rows columns]> m).
Proof.
  intros Hkn Hn k Hk. destruct (decide (setno = k)) as [<-|Hne].
  - exists setno. eexists. split; [apply lookup_insert_eq|done].
  - rewrite lookup_insert_ne in Hk by done.
    destruct (Hkn k Hk) as (k' & s & Hs & He).
    exists k', s. split; [|done].
    rewrite lookup_insert_ne; [done|]. congruence.
Qed.

Lemma keys_numbered_alter m (f : screenset pattern -> screenset pattern) (k0 : Z) :
  (forall s, m_set_number (f s) = m_set_number s) ->
  keys_numbered m -> keys_numbered (alter f k0 m).
Proof.
  intros Hf Hkn k [x Hx]. apply lookup_alter_inv in Hx as (y & Hy & _).
  destruct (Hkn k (mk_is_Some _ _ Hy)) as (k' & s & Hs & He).
  exists k'. eexists. split; [by apply lookup_alter_Some|].
  by case_decide; rewrite ?Hf.
Qed.

Lemma keys_numbered_exchange m (k0 k1 : Z) s0 s1 :
  keys_numbered m -> m !! k0 = Some s0 -> m !! k1 = Some s1 ->
  keys_numbered (<[k1 := s0]> (<[k0 := s1]> m)).
Proof.
  intros Hkn H0 H1 k Hk.
  assert (is_Some (m !! k)) as Hk'.
  { destruct (decide (k1 = k)) as [<-|?]; [eauto|].
    rewrite lookup_insert_ne in Hk by done.
    destruct (decide (k0 = k)) as [<-|?]; [eauto|].
    by rewrite lookup_insert_ne in Hk. }
  destruct (Hkn k Hk') as (k' & s & Hs & He).
  destruct (decide (k' = k0)) as [->|Hn0].
  { exists k1, s0. split; [apply lookup_insert_eq|congruence]. }
  destruct (decide (k' = k1)) as [->|Hn1].
  { exists k0, s1. split; [|congruence].
    rewrite lookup_insert_ne by done. apply lookup_insert_eq. }
  exists k', s. split; [|done]. by rewrite !lookup_insert_ne.
Qed.

Lemma keys_numbered_do_call (c : call) sm sm' :
  keys_numbered (m_container sm) -> do_call c sm = Done sm' ->
  keys_numbered (m_container sm').
Proof.
  intros Hkn. destruct c; cbn -[add_set set_playscreen reset swap_sets].
  - intros Hd. assert (sm' = (add_set sm setno).1) as -> by congruence.
    destruct (m_container sm !! setno) eqn:Hk.
    + by rewrite add_set_present by eauto.
    + rewrite add_set_absent by done. by apply keys_numbered_insert_new.
  - rewrite set_playscreen_done. unfold set_playscreen_result.
    destruct ((setno >=? 0) && (setno <? limit)); cbn -[add_set]; intros Hd.
    2:{ by assert (sm' = sm) as -> by congruence. }
    assert (sm' = activate (add_set sm setno).1 setno) as -> by congruence.
    unfold activate. cbn -[add_set].
    apply keys_numbered_alter; [done|]. apply keys_numbered_alter; [done|].
    destruct (m_container sm !! setno) eqn:Hk.
    + by rewrite add_set_present by eauto.
    + rewrite add_set_absent by done. by apply keys_numbered_insert_new.
  - intros Hd. assert (sm' = (swap_sets sm set0 set1).1) as -> by congruence.
    destruct (find_by_value sm set0) as [k0|] eqn:H0;
      [|by rewrite swap_sets_not_found by auto].
    destruct (find_by_value sm set1) as [k1|] eqn:H1;
      [|by rewrite swap_sets_not_found by auto].
    destruct (swap_sets_located sm set0 set1 k0 k1 H0 H1)
      as (s0 & s1 & Hs0 & _ & Hs1 & _ & ->).
    by apply keys_numbered_exchange.
  - rewrite reset_done. intros [= <-]. simpl.
    apply keys_numbered_insert_new; [|by rewrite lookup_singleton_ne].
    intros k [x Hx]. apply lookup_singleton_Some in Hx as [<- _].
    exists 0. eexists. split; [apply lookup_singleton_eq|done].
Qed.

Lemma keys_numbered_do_calls (cs : list call) : forall sm sm',
  keys_numbered (m_container sm) -> do_calls cs sm = Done sm' ->
  keys_numbered (m_container sm').
Proof.
  induction cs as [|c cs IH]; intros sm sm' Hkn; simpl.
  - by intros [= <-].
  - destruct (do_call_done c sm) as [sm1 H1]. rewrite H1. simpl.
    apply IH. by eapply keys_numbered_do_call.
Qed.

Lemma reachable_keys_numbered sm : reachable sm -> keys_numbered (m_container sm).
Proof.
  intros (u & cs & Hr). rewrite setmaster_ctor_done in Hr. simpl in Hr.
  eapply keys_numbered_do_calls; [|done]. simpl.
  apply keys_numbered_insert_new; [|by rewrite lookup_singleton_ne].
  intros k [x Hx]. apply lookup_singleton_Some in Hx as [<- _].
  exists 0. eexists. split; [apply lookup_singleton_eq|done].
Qed.

(** X12.  In every state a manager can reach, the own numbers of the stored
    sets are a rearrangement of the keys: a number is the own number of a
    stored set exactly when it is a key, and no two sets share a number. *)
Theorem reachable_numbers_are_keys sm :
  reachable sm ->
  (forall setno, occurs setno sm <-> is_Some (m_container sm !! setno))
  /\ (forall k k' s s', m_container sm !! k = Some s -> m_container sm !! k' = Some s' ->
        m_set_number s = m_set_number s' -> k = k').
Proof.
  intros Hr.
  pose proof (reachable_keys_numbered sm Hr) as Hkn.
  destruct (reachable_consistent sm Hr) as [[Hkey Huniq] _].
  split; [|exact Huniq].
  intros setno. split.
  - intros (k & s & Hs & <-). by apply (Hkey k).
  - intros Hk. destruct (Hkn setno Hk) as (k' & s & Hs & He). by exists k', s.
Qed.

End ReachableMore.

(** ** Positions after a swap, and the flag without swaps *)

Section ReachableLookup.

Context {pattern : Type}.
Implicit Types (m : gmap Z (screenset pattern)) (s : screenset pattern)
  (sm : setmaster pattern) (l : list (Z * screenset pattern)).

Lemma screenset_index_loop_keywise (g : Z -> screenset pattern -> screenset pattern)
  l (a b index result : Z) :
  (forall k s, (k, s) ∈ l -> m_set_number (g k s) = a <-> m_set_number s = b) ->
  screenset_index_loop ((fun p => (p.1, g p.1 p.2)) <$> l) a index result
  = screenset_index_loop l b index result.
Proof.
  revert index. induction l as [|[k s] l IH]; intros index Hg; [done|].
  csimpl.
  assert (m_set_number (g k s) = a <-> m_set_number s = b) as He
    by (apply Hg; left).
  destruct (Z.eqb_spec (m_set_number (g k s)) a) as [Ha|Ha];
    destruct (Z.eqb_spec (m_set_number s) b) as [Hb|Hb]; try tauto.
  apply IH. intros k' s' Hin. apply Hg. by right.
Qed.

(** X13.  After a successful [swap_sets] in a reachable state,
    [screenset_index] still counts in key order: the position found for one
    of the two numbers is the position the other number had before. *)
Theorem screenset_index_after_swap (unassigned : Z) sm (set0 set1 : Z) :
  reachable sm -> occurs set0 sm -> occurs set1 sm ->
  screenset_index unassigned (swap_sets sm set0 set1).1 set0
  = screenset_index unassigned sm set1
  /\ screenset_index unassigned (swap_sets sm set0 set1).1 set1
     = screenset_index unassigned sm set0.
Proof.
  intros Hr (k0 & s0 & H0 & <-) (k1 & s1 & H1 & <-).
  apply reachable_consistent in Hr as [Hn _].
  rewrite (swap_sets_found sm k0 k1 s0 s1) by done.
  destruct Hn as [_ Huniq]. unfold screenset_index. simpl.
  set (g := fun (k : Z) (s : screenset pattern) =>
              if decide (k = k1) then s0 else if decide (k = k0) then s1 else s).
  rewrite (bindings_keywise g (m_container sm)).
  2:{ intros k. unfold g. destruct (decide (k = k1)) as [->|Hn1].
      - by rewrite lookup_insert_eq, H1.
      - rewrite lookup_insert_ne by done.
        destruct (decide (k = k0)) as [->|Hn0].
        + by rewrite lookup_insert_eq, H0.
        + rewrite lookup_insert_ne by done. by destruct (m_container sm !! k). }
  split; apply screenset_index_loop_keywise; intros k s Hin;
    apply elem_of_bindings in Hin; unfold g.
  - destruct (decide (k = k1)) as [->|Hn1].
    { by assert (s = s1) as -> by congruence. }
    destruct (decide (k = k0)) as [->|Hn0].
    { assert (s = s0) as -> by congruence. split; congruence. }
    split; intros He; exfalso.
    + apply Hn0. by apply (Huniq k k0 s s0).
    + apply Hn1. by apply (Huniq k k1 s s1).
  - destruct (decide (k = k1)) as [->|Hn1].
    { assert (s = s1) as -> by congruence. split; congruence. }
    destruct (decide (k = k0)) as [->|Hn0].
    { by assert (s = s0) as -> by congruence. }
    split; intros He; exfalso.
    + apply Hn1. by apply (Huniq k k1 s s1).
    + apply Hn0. by apply (Huniq k k0 s s0).
Qed.

Lemma playscreen_marked_do_call (c : call) sm sm' :
  match c with SwapSets _ _ => False | _ => True end ->
  marked sm (m_playscreen sm) = true -> do_call c sm = Done sm' ->
  marked sm' (m_playscreen sm') = true.
Proof.
  intros Hc Hm. destruct c; cbn -[add_set set_playscreen reset]; [| | done |].
  - intros Hd. assert (sm' = (add_set sm setno).1) as -> by congruence.
    by rewrite add_set_playscreen, add_set_marked.
  - rewrite set_playscreen_done. unfold set_playscreen_result.
    destruct ((setno >=? 0) && (setno <? limit)); cbn -[add_set]; intros Hd.
    2:{ by assert (sm' = sm) as -> by congruence. }
    assert (sm' = activate (add_set sm setno).1 setno) as -> by congruence.
    unfold marked, activate. cbn -[add_set].
    destruct (add_set_stores sm setno) as [s Hs].
    erewrite lookup_alter_Some; [|by apply lookup_alter_Some].
    by rewrite decide_True.
  - rewrite reset_done. intros [= <-]. unfold marked. simpl.
    rewrite lookup_insert_ne by done. by rewrite lookup_singleton_eq.
Qed.

Lemma playscreen_flag_do_calls (cs : list call) : forall sm sm',
  swap_free cs ->
  flag_follows_number sm -> marked sm (m_playscreen sm) = true ->
  do_calls cs sm = Done sm' ->
  flag_follows_number sm' /\ marked sm' (m_playscreen sm') = true.
Proof.
  induction cs as [|c cs IH]; intros sm sm' Hfree Hf Hm; simpl.
  - by intros [= <-].
  - apply Forall_cons in Hfree as [Hc Hfree].
    destruct (do_call_done c sm) as [sm1 H1]. rewrite H1. simpl.
    apply IH; [done|by eapply flag_follows_do_call
              |by eapply playscreen_marked_do_call].
Qed.

(** X14.  As long as [swap_sets] is not called, exactly one stored set is
    flagged as the play-screen: the one under the stored play-screen
    number. *)
Theorem playscreen_unique_without_swap (cs : list call) sm :
  swap_free cs -> do_calls cs constructed = Done sm ->
  forall k, marked sm k = true <-> k = m_playscreen sm.
Proof.
  intros Hfree Hd.
  destruct (playscreen_flag_do_calls cs constructed sm Hfree) as [Hf Hm];
    [| |done|].
  - apply (flag_follows_after_reset
             {| m_rows := c_rows; m_columns := c_columns;
                m_set_count := int_wrap (c_rows * c_columns);
                m_container := ∅; m_playscreen := 0;
                m_playscreen_pointer := None |}).
  - unfold marked. simpl. rewrite lookup_insert_ne by done.
    by rewrite lookup_singleton_eq.
  - intros k. split; [apply Hf|by intros ->].
Qed.

End ReachableLookup.

(** ** The visitors, continued *)

Section VisitorsMore.

Context {pattern H slothandler : Type}.
Variable usable : screenset pattern -> bool.
Variable set_slot_routine :
  sethandler pattern H -> slothandler -> H -> screenset pattern
  -> H * screenset pattern * bool.
Variable slot_routine :
  slothandler -> H -> screenset pattern -> H * screenset pattern * bool.

Implicit Types (l : list (Z * screenset pattern)) (m : gmap Z (screenset pattern))
  (sm : setmaster pattern) (s : sethandler pattern H) (h : H).

Lemma set_function_loop_frame s l : forall result index m h calls,
  (forall p, p ∈ l -> is_Some (m !! p.1)) ->
  dom (v_container (set_function_loop usable s l result index m h calls)) = dom m
  /\ (forall k, (forall e, (k, e) ∈ l -> usable e = false) ->
      v_container (set_function_loop usable s l result index m h calls) !! k
      = m !! k).
Proof.
  induction l as [|[key e] l IH]; intros result index m h calls Hkeys; [done|].
  simpl. destruct (usable e) eqn:Hu.
  - unfold screenset_set_function. destruct (s h e index) as [[h' e'] r]. simpl.
    assert (dom (<[key:=e']> m) = dom m) as Hdom.
    { apply dom_insert_lookup_L, (Hkeys (key, e)). left. }
    assert (forall k, (forall e0, (k, e0) ∈ (key, e) :: l -> usable e0 = false) ->
              <[key:=e']> m !! k = m !! k) as Hother.
    { intros k Hk. apply lookup_insert_ne. intros ->.
      specialize (Hk e). rewrite Hu in Hk. by discriminate Hk; left. }
    destruct r; simpl; [|done].
    destruct (IH true (int_wrap (index + 1)) (<[key:=e']> m) h'
                (calls ++ [(key, index)])) as [Hd Hf].
    + intros p Hp. rewrite lookup_insert_is_Some'. right. apply Hkeys. by right.
    + split; [by rewrite Hd|]. intros k Hk. rewrite Hf.
      * by apply Hother.
      * intros e0 Hin. apply Hk. by right.
  - destruct (IH result index m h calls) as [Hd Hf].
    + intros p Hp. apply Hkeys. by right.
    + split; [done|]. intros k Hk. apply Hf. intros e0 Hin. apply Hk. by right.
Qed.

Lemma visit_loop_frame f l : forall result m h calls,
  (forall p, p ∈ l -> is_Some (m !! p.1)) ->
  dom (v_container (visit_loop usable f l result m h calls)) = dom m
  /\ (forall k, (forall e, (k, e) ∈ l -> usable e = false) ->
      v_container (visit_loop usable f l result m h calls) !! k = m !! k).
Proof.
  induction l as [|[key e] l IH]; intros result m h calls Hkeys; [done|].
  simpl. destruct (usable e) eqn:Hu.
  - destruct (f h e) as [[h' e'] r]. simpl.
    assert (dom (<[key:=e']> m) = dom m) as Hdom.
    { apply dom_insert_lookup_L, (Hkeys (key, e)). left. }
    assert (forall k, (forall e0, (k, e0) ∈ (key, e) :: l -> usable e0 = false) ->
              <[key:=e']> m !! k = m !! k) as Hother.
    { intros k Hk. apply lookup_insert_ne. intros ->.
      specialize (Hk e). rewrite Hu in Hk. by discriminate Hk; left. }
    destruct r; simpl; [|done].
    destruct (IH true (<[key:=e']> m) h' (calls ++ [key])) as [Hd Hf].
    + intros p Hp. rewrite lookup_insert_is_Some'. right. apply Hkeys. by right.
    + split; [by rewrite Hd|]. intros k Hk. rewrite Hf.
      * by apply Hother.
      * intros e0 Hin. apply Hk. by right.
  - destruct (IH result m h calls) as [Hd Hf].
    + intros p Hp. apply Hkeys. by right.
    + split; [done|]. intros k Hk. apply Hf. intros e0 Hin. apply Hk. by right.
Qed.

Lemma bindings_keys_stored sm (p : Z * screenset pattern) :
  p ∈ bindings (m_container sm) -> is_Some (m_container sm !! p.1).
Proof. destruct p as [k e]. intros Hin. apply elem_of_bindings in Hin. eauto. Qed.

Lemma bindings_unusable_at sm (k : Z) (e : screenset pattern) :
  m_container sm !! k = Some e -> usable e = false ->
  forall e0, (k, e0) ∈ bindings (m_container sm) -> usable e0 = false.
Proof. intros Hk Hu e0 Hin. apply elem_of_bindings in Hin. congruence. Qed.

(** X15.  Whatever the handlers do, none of the three overloads of
    [set_function] adds or removes a key, and none touches a set that is not
    usable: the dummy, for one, is never handed to a handler. *)
Theorem set_function_frame sm s (p : slothandler) h :
  (dom (v_container (set_function usable sm s h)) = dom (m_container sm)
   /\ forall k e, m_container sm !! k = Some e -> usable e = false ->
        v_container (set_function usable sm s h) !! k = Some e)
  /\ (dom (v_container (set_function_sets_slots usable set_slot_routine sm s p h))
      = dom (m_container sm)
      /\ forall k e, m_container sm !! k = Some e -> usable e = false ->
           v_container (set_function_sets_slots usable set_slot_routine sm s p h) !! k
           = Some e)
  /\ (dom (v_container (set_function_slots usable slot_routine sm p h))
      = dom (m_container sm)
      /\ forall k e, m_container sm !! k = Some e -> usable e = false ->
           v_container (set_function_slots usable slot_routine sm p h) !! k = Some e).
Proof.
  unfold set_function, set_function_sets_slots, set_function_slots.
  split; [|split].
  - destruct (set_function_loop_frame s (bindings (m_container sm)) false 0
                (m_container sm) h [] (bindings_keys_stored sm)) as [Hd Hf].
    split; [done|]. intros k e Hk Hu. rewrite Hf; [done|].
    by apply (bindings_unusable_at sm k e).
  - destruct (visit_loop_frame (set_slot_routine s p) (bindings (m_container sm))
                false (m_container sm) h [] (bindings_keys_stored sm)) as [Hd Hf].
    split; [done|]. intros k e Hk Hu. rewrite Hf; [done|].
    by apply (bindings_unusable_at sm k e).
  - destruct (visit_loop_frame (slot_routine p) (bindings (m_container sm))
                false (m_container sm) h [] (bindings_keys_stored sm)) as [Hd Hf].
    split; [done|]. intros k e Hk Hu. rewrite Hf; [done|].
    by apply (bindings_unusable_at sm k e).
Qed.

End VisitorsMore.

(** ** Which sets a visit reaches *)

Section VisitorsReach.

Context {pattern H slothandler : Type}.
Variable usable : screenset pattern -> bool.
Variable set_slot_routine :
  sethandler pattern H -> slothandler -> H -> screenset pattern
  -> H * screenset pattern * bool.
Variable slot_routine :
  slothandler -> H -> screenset pattern -> H * screenset pattern * bool.

Implicit Types (l : list (Z * screenset pattern)) (m : gmap Z (screenset pattern))
  (sm : setmaster pattern) (s : sethandler pattern H) (h : H).

Lemma filter_usable_nil l :
  filter (fun sset => usable sset.2 = true) l = [] ->
  Forall (fun sset => usable sset.2 = false) l.
Proof.
  induction l as [|[k e] l IH]; [constructor|].
  destruct (usable e) eqn:Hu.
  - by rewrite filter_cons_True.
  - rewrite filter_cons_False by (simpl; congruence).
    intros Hf. constructor; [done|by apply IH].
Qed.

Lemma set_function_loop_calls s l : forall result index m h calls,
  0 <= index ->
  index + Z.of_nat (length (filter (fun sset => usable sset.2 = true) l))
    <= int_max + 1 ->
  exists n : nat,
    (n <= length (filter (fun sset => usable sset.2 = true) l))%nat
    /\ v_calls (set_function_loop usable s l result index m h calls)
       = calls ++ zip (take n (filter (fun sset => usable sset.2 = true) l)).*1
                      (seqZ index (Z.of_nat n))
    /\ (v_result (set_function_loop usable s l result index m h calls) = true ->
        n = length (filter (fun sset => usable sset.2 = true) l))
    /\ (n = 0%nat ->
        v_result (set_function_loop usable s l result index m h calls) = result).
Proof.
  induction l as [|[key e] l IH]; intros result index m h calls Hi Hfit.
  { exists 0%nat. simpl. by rewrite app_nil_r. }
  simpl. destruct (usable e) eqn:Hu.
  2:{ rewrite filter_cons_False in * by (simpl; congruence). by apply IH. }
  rewrite filter_cons_True in * by done. simpl length in *.
  unfold screenset_set_function. destruct (s h e index) as [[h' e'] r].
  destruct r.
  - destruct (filter (fun sset => usable sset.2 = true) l) as [|p0 l0] eqn:Hfl.
    + rewrite set_function_loop_unusable by (by apply filter_usable_nil).
      exists 1%nat. simpl. split; [lia|]. split; [|done].
      repeat (f_equal; try lia).
    + assert (int_wrap (index + 1) = index + 1) as Hw.
      { apply int_wrap_small. unfold int_min, int_max in *.
        simpl length in *. lia. }
      rewrite Hw.
      destruct (IH true (index + 1) (<[key:=e']> m) h'
                  (calls ++ [(key, index)])) as (n & Hn & Hc & Ht & _);
        [lia|simpl length in *; lia|].
      exists (S n). split; [lia|]. split; [|split; [|lia]].
      * rewrite Hc, <- app_assoc. simpl. rewrite (seqZ_cons index) by lia.
        simpl. do 4 f_equal. lia.
      * intros Hr. by rewrite (Ht Hr).
  - exists 1%nat. simpl. split; [lia|]. split; [|done].
    repeat (f_equal; try lia).
Qed.

(** X16.  [set_function] calls the handler on an initial stretch of the
    usable sets, in ascending key order, with the indices 0, 1, 2, ... and
    nothing else; when it returns [true], there is a usable set and every
    usable set was visited. *)
Theorem set_function_visits_in_order sm s h :
  Z.of_nat (length (usable_sets usable sm)) <= int_max ->
  exists n : nat,
    (n <= length (usable_sets usable sm))%nat
    /\ v_calls (set_function usable sm s h)
       = zip (take n (usable_sets usable sm)).*1 (seqZ 0 (Z.of_nat n))
    /\ (v_result (set_function usable sm s h) = true ->
        n = length (usable_sets usable sm) /\ usable_sets usable sm <> []).
Proof.
  intros Hfit.
  destruct (set_function_loop_calls s (bindings (m_container sm)) false 0
              (m_container sm) h []) as (n & Hn & Hc & Ht & Hz).
  - lia.
  - fold (usable_sets usable sm). lia.
  - fold (usable_sets usable sm) in *. fold (set_function usable sm s h) in *.
    exists n. split; [done|]. split; [done|].
    intros Hr. split; [by apply Ht|].
    intros Hnil. rewrite Hnil in Hn. simpl in Hn.
    assert (n = 0%nat) as Hn0 by lia. rewrite (Hz Hn0) in Hr. done.
Qed.

Lemma visit_loop_calls f l : forall result m h calls,
  exists n : nat,
    (n <= length (filter (fun sset => usable sset.2 = true) l))%nat
    /\ v_calls (visit_loop usable f l result m h calls)
       = calls ++ (take n (filter (fun sset => usable sset.2 = true) l)).*1
    /\ (v_result (visit_loop usable f l result m h calls) = true ->
        n = length (filter (fun sset => usable sset.2 = true) l))
    /\ (n = 0%nat -> v_result (visit_loop usable f l result m h calls) = result).
Proof.
  induction l as [|[key e] l IH]; intros result m h calls.
  { exists 0%nat. simpl. by rewrite app_nil_r. }
  simpl. destruct (usable e) eqn:Hu.
  2:{ rewrite filter_cons_False by (simpl; congruence). by apply IH. }
  rewrite filter_cons_True by done. simpl length.
  destruct (f h e) as [[h' e'] r]. destruct r.
  - destruct (IH true (<[key:=e']> m) h' (calls ++ [key]))
      as (n & Hn & Hc & Ht & _).
    exists (S n). split; [lia|]. split; [|split; [|lia]].
    + by rewrite Hc, <- app_assoc.
    + intros Hr. by rewrite (Ht Hr).
  - exists 1%nat. simpl. split; [lia|]. done.
Qed.

(** X17.  The other two overloads call the screen-set's routine on an
    initial stretch of the usable sets, in ascending key order; when they
    return [true], there is a usable set and every usable set was visited. *)
Theorem set_function_overloads_visit_in_order sm s (p : slothandler) h :
  (exists n : nat,
     v_calls (set_function_sets_slots usable set_slot_routine sm s p h)
     = (take n (usable_sets usable sm)).*1
     /\ (v_result (set_function_sets_slots usable set_slot_routine sm s p h) = true ->
         v_calls (set_function_sets_slots usable set_slot_routine sm s p h)
         = (usable_sets usable sm).*1
         /\ usable_sets usable sm <> []))
  /\ (exists n : nat,
       v_calls (set_function_slots usable slot_routine sm p h)
       = (take n (usable_sets usable sm)).*1
       /\ (v_result (set_function_slots usable slot_routine sm p h) = true ->
           v_calls (set_function_slots usable slot_routine sm p h)
           = (usable_sets usable sm).*1
           /\ usable_sets usable sm <> [])).
Proof.
  assert (forall f,
    exists n : nat,
      v_calls (visit_loop usable f (bindings (m_container sm)) false
                 (m_container sm) h [])
      = (take n (usable_sets usable sm)).*1
      /\ (v_result (visit_loop usable f (bindings (m_container sm)) false
                      (m_container sm) h []) = true ->
          v_calls (visit_loop usable f (bindings (m_container sm)) false
                     (m_container sm) h [])
          = (usable_sets usable sm).*1
          /\ usable_sets usable sm <> [])) as Hgen.
  { intros f.
    destruct (visit_loop_calls f (bindings (m_container sm)) false
                (m_container sm) h []) as (n & Hn & Hc & Ht & Hz).
    fold (usable_sets usable sm) in *.
    exists n. split; [done|]. intros Hr. split.
    - rewrite Hc, (Ht Hr). simpl. by rewrite firstn_all.
    - intros Hnil. rewrite Hnil in Hn. simpl in Hn.
      assert (n = 0%nat) as Hn0 by lia. rewrite (Hz Hn0) in Hr. done. }
  split; apply Hgen.
Qed.

End VisitorsReach.

(** ** The report *)

Section ReportProperties.

Context {pattern : Type}.
Variable usable : screenset pattern -> bool.
Variable to_string : screenset pattern -> bool -> string.

Implicit Types (l : list (Z * screenset pattern)) (m : gmap Z (screenset pattern))
  (sm : setmaster pattern).

Lemma sets_to_string_loop_shown l (showseqs : bool) (result : string) :
  sets_to_string_loop usable to_string l showseqs result
  = sets_to_string_loop usable to_string
      (filter (fun p => p.1 < limit) l) showseqs result.
Proof.
  revert result. induction l as [|[k e] l IH]; intros result; [done|].
  simpl. destruct (Z.ltb_spec k limit) as [Hlt|Hge].
  - rewrite filter_cons_True by done. simpl.
    destruct (Z.ltb_spec k limit); [|lia]. apply IH.
  - rewrite filter_cons_False by (simpl; lia). apply IH.
Qed.

Lemma bindings_shown m :
  filter (fun p => p.1 < limit) (bindings m)
  = bindings (filter (fun p => p.1 < limit) m).
Proof.
  apply bindings_unique.
  - eapply StronglySorted_sublist; [apply sublist_filter|apply bindings_sorted].
  - apply NoDup_Permutation.
    + apply NoDup_filter. apply (NoDup_fmap_1 fst), bindings_keys_NoDup.
    + apply NoDup_map_to_list.
    + intros [k e]. rewrite list_elem_of_filter, elem_of_bindings,
        elem_of_map_to_list, map_lookup_filter_Some. simpl. tauto.
Qed.

(** X18.  The report shows the sets stored under keys below [limit] only:
    two managers that agree on those keys give the same report, whatever
    they store at and above [limit], and with no key below [limit] the
    report is its heading alone. *)
Theorem sets_to_string_below_limit sm sm' (showseqs : bool) :
  (forall k, k < limit -> m_container sm !! k = m_container sm' !! k) ->
  sets_to_string usable to_string sm showseqs
  = sets_to_string usable to_string sm' showseqs
  /\ ((forall k, k < limit -> m_container sm !! k = None) ->
      sets_to_string usable to_string sm showseqs
      = "Sets" +:+ (if showseqs then " and Sequences:" else ":") +:+ endl).
Proof.
  intros Hagree. unfold sets_to_string. split.
  - rewrite (sets_to_string_loop_shown (bindings (m_container sm))),
      (sets_to_string_loop_shown (bindings (m_container sm'))).
    rewrite !bindings_shown.
    assert (filter (fun p => p.1 < limit) (m_container sm)
            = filter (fun p => p.1 < limit) (m_container sm')) as ->; [|done].
    apply map_eq. intros k. apply option_eq. intros e.
    rewrite !map_lookup_filter_Some. simpl.
    split; intros [Hk Hlt]; (split; [|done]).
    + by rewrite <- Hagree.
    + by rewrite Hagree.
  - intros Hnone.
    rewrite (sets_to_string_loop_shown (bindings (m_container sm))).
    rewrite bindings_shown.
    replace (filter (fun p => p.1 < limit) (m_container sm))
      with (∅ : gmap Z (screenset pattern)); [by rewrite bindings_empty|].
    symmetry. apply map_eq. intros k. rewrite lookup_empty.
    apply eq_None_not_Some. intros [e He].
    apply map_lookup_filter_Some in He as [Hk Hlt]. simpl in Hlt.
    rewrite Hnone in Hk by done. done.
Qed.

End ReportProperties.

(** ** What is stored stays stored *)

Section Growth.

Context {pattern : Type}.
Implicit Types (m : gmap Z (screenset pattern)) (s : screenset pattern)
  (sm : setmaster pattern).

Lemma do_call_keeps_keys (c : call) sm sm' :
  match c with Reset => False | _ => True end ->
  do_call c sm = Done sm' ->
  dom (m_container sm) ⊆ dom (m_container sm').
Proof.
  intros Hc. destruct c; cbn -[add_set set_playscreen reset swap_sets]; [| | |done].
  - intros Hd. assert (sm' = (add_set sm setno).1) as -> by congruence.
    destruct (m_container sm !! setno) eqn:Hk.
    + by rewrite add_set_present by eauto.
    + rewrite add_set_absent by done. simpl. rewrite dom_insert_L.
      apply union_subseteq_r.
  - rewrite set_playscreen_done. unfold set_playscreen_result.
    destruct ((setno >=? 0) && (setno <? limit)); cbn -[add_set]; intros Hd.
    2:{ by assert (sm' = sm) as -> by congruence. }
    assert (sm' = activate (add_set sm setno).1 setno) as -> by congruence.
    unfold activate. cbn -[add_set]. rewrite !dom_alter_L.
    destruct (m_container sm !! setno) eqn:Hk.
    + by rewrite add_set_present by eauto.
    + rewrite add_set_absent by done. simpl. rewrite dom_insert_L.
      apply union_subseteq_r.
  - intros Hd. assert (sm' = (swap_sets sm set0 set1).1) as -> by congruence.
    destruct (find_by_value sm set0) as [k0|] eqn:H0;
      [|by rewrite swap_sets_not_found by auto].
    destruct (find_by_value sm set1) as [k1|] eqn:H1;
      [|by rewrite swap_sets_not_found by auto].
    destruct (swap_sets_located sm set0 set1 k0 k1 H0 H1)
      as (s0 & s1 & Hs0 & _ & Hs1 & _ & ->).
    simpl. rewrite !dom_insert_L.
    etrans; [|apply union_subseteq_r]. apply union_subseteq_r.
Qed.

(** X19.  Only [reset] removes sets: along a sequence of [add_set],
    [set_playscreen] and [swap_sets] calls every key that is stored stays
    stored, so the number of stored sets never goes down. *)
Theorem keys_stay_stored (cs : list call) : forall sm sm',
  reset_free cs -> do_calls cs sm = Done sm' ->
  dom (m_container sm) ⊆ dom (m_container sm')
  /\ (size (m_container sm) <= size (m_container sm'))%nat.
Proof.
  assert (forall sm sm', reset_free cs -> do_calls cs sm = Done sm' ->
            dom (m_container sm) ⊆ dom (m_container sm')) as Hsub.
  { induction cs as [|c cs IH]; intros sm sm' Hfree; simpl.
    - by intros [= <-].
    - apply Forall_cons in Hfree as [Hc Hfree].
      destruct (do_call_done c sm) as [sm1 H1]. rewrite H1. simpl.
      intros Hd. etrans; [by eapply do_call_keeps_keys|by apply IH]. }
  intros sm sm' Hfree Hd. split; [by apply Hsub|].
  rewrite <- !size_dom. apply subseteq_size. by apply Hsub.
Qed.

(** X20.  In a state a manager can reach, a number given to [add_set] is the
    own number of a stored set afterwards, so that [find_by_value] and
    [swap_sets] can address it; when the key was free, it is the new set that
    is found. *)
Theorem add_set_then_find sm (setno : Z) :
  reachable sm ->
  occurs setno (add_set sm setno).1
  /\ (m_container sm !! setno = None ->
      find_by_value (add_set sm setno).1 setno = Some setno).
Proof.
  intros Hr.
  pose proof (reachable_keys_numbered sm Hr) as Hkn.
  pose proof (reachable_consistent sm Hr) as Hc.
  split.
  - assert (keys_numbered (m_container (add_set sm setno).1)) as Hkn'
      by (by apply (keys_numbered_do_call (AddSet setno) sm)).
    destruct (Hkn' setno (add_set_stores sm setno)) as (k' & s & Hs & He).
    by exists k', s.
  - intros Hn. destruct (consistent_add_set sm setno Hc) as [Hnum _].
    eapply find_by_value_unique; [done| |].
    + rewrite add_set_absent by done. simpl. apply lookup_insert_eq.
    + done.
Qed.

End Growth.

(** ** The further properties at concrete managers *)

Module MoreExamples.

Import Samples.

Lemma occurs_three_sets_1 : occurs 1 three_sets.
Proof. exists 1. eexists. split; [vm_compute; reflexivity|reflexivity]. Defined.

Lemma occurs_three_sets_2 : occurs 2 three_sets.
Proof. exists 2. eexists. split; [vm_compute; reflexivity|reflexivity]. Defined.

Lemma screenset_index_first_match_witness :
  Z.of_nat (size (m_container three_sets)) <= int_max
  /\ occurs 2 three_sets
  /\ exists (i : nat) k s,
       screenset_index (-1) three_sets 2 = Z.of_nat i
       /\ bindings (m_container three_sets) !! i = Some (k, s)
       /\ m_set_number s = 2
       /\ (forall j k' s', (j < i)%nat ->
             bindings (m_container three_sets) !! j = Some (k', s') ->
             m_set_number s' <> 2)
       /\ find_by_value three_sets 2 = Some k.
Proof.
  assert (Z.of_nat (size (m_container three_sets)) <= int_max) as Hfit
    by (vm_compute; discriminate).
  split; [exact Hfit|]. split; [exact occurs_three_sets_2|].
  exact (proj2 (screenset_index_first_match (-1) three_sets 2 Hfit)
           occurs_three_sets_2).
Defined.

Lemma find_by_value_least_key_witness :
  find_by_value three_sets 1 = Some 1
  /\ (exists s, m_container three_sets !! 1 = Some s /\ m_set_number s = 1)
  /\ (forall k' s', m_container three_sets !! k' = Some s' ->
        m_set_number s' = 1 -> 1 <= k').
Proof.
  assert (find_by_value three_sets 1 = Some 1) as Hf by (vm_compute; reflexivity).
  split; [exact Hf|].
  exact (find_by_value_least_key three_sets 1 1 Hf).
Defined.

Lemma set_playscreen_existing_witness :
  0 <= 0 < limit
  /\ (exists s, m_container (@constructed unit) !! 0 = Some s)
  /\ exists sm' : setmaster unit,
       set_playscreen constructed 0 = Done (sm', true)
       /\ dom (m_container sm') = dom (m_container (@constructed unit))
       /\ m_playscreen sm' = 0.
Proof.
  assert (0 <= 0 < limit) as Hr by (unfold limit; lia).
  assert (m_container (@constructed unit) !! 0
          = Some (set_is_playscreen true (screenset_new 0 c_rows c_columns)))
    as Hs by (vm_compute; reflexivity).
  split; [exact Hr|]. split; [eexists; exact Hs|].
  destruct (set_playscreen_existing (@constructed unit) 0 _ Hr Hs)
    as (sm' & Hd & Hdom & _ & _ & Hp & _).
  exists sm'. repeat split; assumption.
Defined.

Lemma calculate_set_decode_witness :
  m_rows (@constructed unit) * m_columns (@constructed unit) <= int_max
  /\ calculate_set (@constructed unit) 3 7 mod m_rows (@constructed unit) = 3
  /\ calculate_set (@constructed unit) 3 7 / m_rows (@constructed unit) = 7
  /\ calculate_set (@constructed unit)
       (31 mod m_rows (@constructed unit)) (31 / m_rows (@constructed unit)) = 31.
Proof.
  assert (m_rows (@constructed unit) * m_columns (@constructed unit) <= int_max)
    as Hfit by (vm_compute; discriminate).
  split; [exact Hfit|].
  destruct (calculate_set_decode (@constructed unit) Hfit) as [Hdec Henc].
  destruct (Hdec 3 7) as (_ & Hrow & Hcol);
    [simpl; unfold c_rows; lia|simpl; unfold c_columns; lia|].
  split; [exact Hrow|]. split; [exact Hcol|].
  apply Henc; simpl; unfold c_rows, c_columns; lia.
Defined.

Lemma reachable_standing_witness :
  reachable three_sets /\ standing three_sets.
Proof.
  split; [exact Examples.reachable_three_sets|].
  exact (reachable_standing three_sets Examples.reachable_three_sets).
Defined.

Lemma reachable_numbers_are_keys_witness :
  reachable three_sets
  /\ (forall setno, occurs setno three_sets
                    <-> is_Some (m_container three_sets !! setno))
  /\ (forall k k' s s', m_container three_sets !! k = Some s ->
        m_container three_sets !! k' = Some s' ->
        m_set_number s = m_set_number s' -> k = k').
Proof.
  split; [exact Examples.reachable_three_sets|].
  exact (reachable_numbers_are_keys three_sets Examples.reachable_three_sets).
Defined.

Lemma screenset_index_after_swap_witness :
  reachable three_sets /\ occurs 1 three_sets /\ occurs 2 three_sets
  /\ screenset_index (-1) (swap_sets three_sets 1 2).1 1
     = screenset_index (-1) three_sets 2
  /\ screenset_index (-1) (swap_sets three_sets 1 2).1 2
     = screenset_index (-1) three_sets 1.
Proof.
  split; [exact Examples.reachable_three_sets|].
  split; [exact occurs_three_sets_1|]. split; [exact occurs_three_sets_2|].
  exact (screenset_index_after_swap (-1) three_sets 1 2
           Examples.reachable_three_sets occurs_three_sets_1 occurs_three_sets_2).
Defined.

Lemma playscreen_unique_without_swap_witness :
  exists sm : setmaster unit,
    swap_free [AddSet 5; SetPlayscreen 5]
    /\ do_calls [AddSet 5; SetPlayscreen 5] constructed = Done sm
    /\ forall k, marked sm k = true <-> k = m_playscreen sm.
Proof.
  assert (swap_free [AddSet 5; SetPlayscreen 5]) as Hfree
    by (repeat constructor).
  destruct (do_calls_done [AddSet 5; SetPlayscreen 5] (@constructed unit))
    as [sm Hd].
  exists sm. split; [exact Hfree|]. split; [exact Hd|].
  exact (playscreen_unique_without_swap _ sm Hfree Hd).
Defined.

Lemma set_function_visits_in_order_witness :
  Z.of_nat (length (usable_sets not_dummy three_sets)) <= int_max
  /\ exists n : nat,
       (n <= length (usable_sets not_dummy three_sets))%nat
       /\ v_calls (set_function not_dummy three_sets
                     (fun (h : nat) sset _ => (S h, sset, true)) 0%nat)
          = zip (take n (usable_sets not_dummy three_sets)).*1
                (seqZ 0 (Z.of_nat n))
       /\ (v_result (set_function not_dummy three_sets
                       (fun (h : nat) sset _ => (S h, sset, true)) 0%nat) = true ->
           n = length (usable_sets not_dummy three_sets)
           /\ usable_sets not_dummy three_sets <> []).
Proof.
  assert (Z.of_nat (length (usable_sets not_dummy three_sets)) <= int_max) as Hfit
    by (vm_compute; discriminate).
  split; [exact Hfit|].
  exact (set_function_visits_in_order not_dummy three_sets
           (fun (h : nat) sset _ => (S h, sset, true)) 0%nat Hfit).
Defined.

Lemma sets_to_string_below_limit_witness :
  (forall k, k < limit ->
     m_container (@constructed unit) !! k
     = m_container (add_set (@constructed unit) 3000).1 !! k)
  /\ sets_to_string not_dummy (fun _ _ => endl) (@constructed unit) false
     = sets_to_string not_dummy (fun _ _ => endl)
         (add_set (@constructed unit) 3000).1 false.
Proof.
  assert (forall k, k < limit ->
            m_container (@constructed unit) !! k
            = m_container (add_set (@constructed unit) 3000).1 !! k) as Hagree.
  { intros k Hk. rewrite add_set_absent by (vm_compute; reflexivity).
    cbn [fst m_container with_container].
    rewrite lookup_insert_ne; [reflexivity|]. unfold limit in Hk. lia. }
  split; [exact Hagree|].
  exact (proj1 (sets_to_string_below_limit not_dummy (fun _ _ => endl)
                  constructed (add_set constructed 3000).1 false Hagree)).
Defined.

Lemma keys_stay_stored_witness :
  exists sm : setmaster unit,
    reset_free [AddSet 5; SwapSets 0 5; SetPlayscreen 7]
    /\ do_calls [AddSet 5; SwapSets 0 5; SetPlayscreen 7] constructed = Done sm
    /\ dom (m_container (@constructed unit)) ⊆ dom (m_container sm)
    /\ (size (m_container (@constructed unit)) <= size (m_container sm))%nat.
Proof.
  assert (reset_free [AddSet 5; SwapSets 0 5; SetPlayscreen 7]) as Hfree
    by (repeat constructor).
  destruct (do_calls_done [AddSet 5; SwapSets 0 5; SetPlayscreen 7]
              (@constructed unit)) as [sm Hd].
  exists sm. split; [exact Hfree|]. split; [exact Hd|].
  exact (keys_stay_stored _ constructed sm Hfree Hd).
Defined.

Lemma add_set_then_find_witness :
  reachable three_sets
  /\ occurs 9 (add_set three_sets 9).1
  /\ (m_container three_sets !! 9 = None ->
      find_by_value (add_set three_sets 9).1 9 = Some 9).
Proof.
  split; [exact Examples.reachable_three_sets|].
  exact (add_set_then_find three_sets 9 Examples.reachable_three_sets).
Defined.

End MoreExamples.
